(** * mongo-migrate: versioned migrations over a MongoDB database

    A shallow embedding of [migrate.go].  The Go methods of [Migrate] become
    functions that thread an explicit [World]: the contents of the database
    behind the [*mongo.Database] handle, the clock read by [time.Now], the
    lines handed to the logger, and the outcome of every driver call. *)

From Stdlib Require Import ZArith NArith Lia Sorted.
From stdpp Require Import gmap strings list fin_maps.

Local Open Scope Z_scope.

(** * Data model *)

(** Go's [uint64]; versions are only compared, never computed with. *)
Abbreviation uint64 := N (only parsing).

(** Go's [error] values that the package can see. *)
Inductive error : Type :=
| ErrNoDocuments              (* mongo.ErrNoDocuments *)
| ErrDriver (code : nat)      (* any other error coming from the driver *)
| ErrAction (code : nat).     (* an error returned by a migration function *)

(** The driver's error for a value that it cannot write as a BSON
    document. *)
Definition marshalError : error := ErrDriver 1.

(** The driver's error for a decode with no document to read ([io.EOF]). *)
Definition eofError : error := ErrDriver 2.

(** A call that yields a value or an error, Go's [(v, err)]. *)
Inductive result (A : Type) : Type :=
| Ok (a : A)
| Err (e : error).
Arguments Ok {A} a.
Arguments Err {A} e.

Module Rec.
(** [type versionRecord struct]. *)
Record versionRecord : Type := mk {
  Version : uint64;
  Description : string;
  Timestamp : nat
}.
End Rec.
Abbreviation versionRecord := Rec.versionRecord.

(** The database behind [*mongo.Database]: its collections by name, the
    documents of a collection in insertion order (ascending [_id]). *)
Abbreviation Database := (gmap string (list versionRecord)).

(** A migration function, [func(db *mongo.Database) error]: it may change
    the database in any way and reports success or failure. *)
Definition MigrationFunc : Type := Database -> Database * option error.

Module Mig.
(** Modelled from the spec: the [Migration] type is declared outside
    migrate.go; its fields are the ones migrate.go reads ([Version],
    [Description], [Up], [Down]), an absent action being Go's [nil]. *)
Record Migration : Type := mk {
  Version : uint64;
  Description : string;
  Up : option MigrationFunc;
  Down : option MigrationFunc
}.
End Mig.
Abbreviation Migration := Mig.Migration.

Definition defaultMigrationsCollection : string := "migrations".

(** [const AllAvailable = -1]. *)
Definition AllAvailable : Z := -1.

(** [type Migrate struct]; the [db] field is the handle on the [World]'s
    store, [logger] tells whether a logger is set. *)
Record Migrate : Type := mkMigrate {
  migrations : list Migration;
  migrationsCollection : string;
  logger : bool
}.

(** Instrumentation: every call of a migration function is noted. *)
Inductive event : Type :=
| RanUp (v : uint64)
| RanDown (v : uint64).

(** What [logger.Printf] receives. *)
Inductive logLine : Type :=
| MigratedUp (v : uint64) (d : string)
| MigratedDown (v : uint64) (d : string).

Record World : Type := mkWorld {
  store : Database;
  calls : nat;                      (* driver calls issued so far *)
  fault : nat -> option error;      (* the error, if any, held for the k-th driver call *)
  clock : nat;                      (* the next reading of time.Now().UTC() *)
  trace : list event;
  output : list logLine
}.

Definition tick (w : World) : World :=
  mkWorld (store w) (S (calls w)) (fault w) (clock w) (trace w) (output w).

Definition setStore (db : Database) (w : World) : World :=
  mkWorld db (calls w) (fault w) (clock w) (trace w) (output w).

Definition note (ev : event) (w : World) : World :=
  mkWorld (store w) (calls w) (fault w) (clock w) (trace w ++ [ev]) (output w).

Definition Printf (line : logLine) (w : World) : World :=
  mkWorld (store w) (calls w) (fault w) (clock w) (trace w) (output w ++ [line]).

(** [time.Now().UTC()]: a logical clock that moves on at every reading. *)
Definition timeNow (w : World) : nat * World :=
  (clock w, mkWorld (store w) (calls w) (fault w) (S (clock w)) (trace w) (output w)).

(** * The driver

    The calls of go.mongodb.org/mongo-driver that migrate.go makes.  A call
    fails with the error the world holds for it, if any (a lost connection,
    a refused write, a version above MaxInt64 that cannot be encoded);
    otherwise it does what the driver does:
    - a filter has to marshal as a BSON document: a [bson.M] does so; the
      [bson.D] of github.com/globalsign/mgo/bson, the package that
      migrate.go imports, is a slice and does not;
    - [Find] hands back a cursor, for an empty result too, and never fails
      with [ErrNoDocuments];
    - a cursor has no current document until [Next] is called, and
      [Decode] reads the current document. *)

(** The two values that [bson.D{}] can stand for in a Go file. *)
Inductive listFilter : Type :=
| MgoD                           (* bson.D{} of mgo's bson, a []DocElem *)
| DriverD.                       (* bson.D{} of the driver's own bson *)

Inductive filter : Type :=
| MatchAll                       (* bson.M{} *)
| MatchVersion (v : uint64).     (* bson.M{"version": v} *)

Inductive sortOrder : Type :=
| Natural                        (* no options *)
| IdDescending.                  (* Sort: bson.M{"_id": -1} *)

(** A cursor: the document it stands on, if it was advanced, and the
    documents still to come. *)
Record Cursor : Type := mkCursor {
  Current : option versionRecord;
  pending : list versionRecord
}.

Definition ListCollectionNames (f : listFilter) (w : World)
  : result (list string) * World :=
  match fault w (calls w) with
  | Some e => (Err e, tick w)
  | None =>
      match f with
      | MgoD => (Err marshalError, tick w)
      | DriverD => (Ok (map_to_list (store w)).*1, tick w)
      end
  end.

(** [RunCommand] with [{create: name}]; the server refuses to create a
    collection that exists (NamespaceExists, code 48). *)
Definition RunCommandCreate (name : string) (w : World) : option error * World :=
  match fault w (calls w) with
  | Some e => (Some e, tick w)
  | None =>
      match store w !! name with
      | Some _ => (Some (ErrDriver 48), tick w)
      | None => (None, setStore (<[name := []]> (store w)) (tick w))
      end
  end.

Definition matches (f : filter) (r : versionRecord) : bool :=
  match f with
  | MatchAll => true
  | MatchVersion v => N.eqb (Rec.Version r) v
  end.

Definition documents (name : string) (db : Database) : list versionRecord :=
  default [] (db !! name).

Definition Find (name : string) (f : filter) (o : sortOrder) (w : World)
  : result Cursor * World :=
  match fault w (calls w) with
  | Some e => (Err e, tick w)
  | None =>
      let hits := List.filter (matches f) (documents name (store w)) in
      let ordered := match o with Natural => hits | IdDescending => rev hits end in
      (Ok (mkCursor None ordered), tick w)
  end.

(** [cursor.Next]: moves to the next document, if there is one.  migrate.go
    never calls it. *)
Definition Next (c : Cursor) : bool * Cursor :=
  match pending c with
  | [] => (false, c)
  | doc :: rest => (true, mkCursor (Some doc) rest)
  end.

Definition Decode (c : Cursor) (w : World) : result versionRecord * World :=
  match fault w (calls w) with
  | Some e => (Err e, tick w)
  | None =>
      match Current c with
      | Some rec => (Ok rec, tick w)
      | None => (Err eofError, tick w)
      end
  end.

(** [InsertOne]: the document goes last; the server creates the collection
    on the first insert. *)
Definition InsertOne (name : string) (rec : versionRecord) (w : World)
  : option error * World :=
  match fault w (calls w) with
  | Some e => (Some e, tick w)
  | None =>
      (None, setStore (<[name := documents name (store w) ++ [rec]]> (store w)) (tick w))
  end.

(** * migrate.go *)

Definition NewMigrate (ms : list Migration) : Migrate :=
  mkMigrate ms defaultMigrationsCollection false.

Definition SetMigrationsCollection (name : string) (m : Migrate) : Migrate :=
  mkMigrate (migrations m) name (logger m).


(** The [for _, v := range colls] loop of [isCollectionExist]. *)
Fixpoint rangeColls (name : string) (colls : list string) : bool :=
  match colls with
  | [] => false
  | v :: rest => if String.eqb name v then true else rangeColls name rest
  end.

Definition isCollectionExist (name : string) (w : World) : result bool * World :=
  match ListCollectionNames MgoD w with
  | (Err err, w1) => (Err err, w1)
  | (Ok colls, w1) => (Ok (rangeColls name colls), w1)
  end.

Definition createCollectionIfNotExist (name : string) (w : World)
  : option error * World :=
  match isCollectionExist name w with
  | (Err err, w1) => (Some err, w1)
  | (Ok true, w1) => (None, w1)
  | (Ok false, w1) => RunCommandCreate name w1
  end.

(** [Version] returns current database version and comment. *)
Definition Version (m : Migrate) (w : World)
  : (uint64 * string * option error) * World :=
  match createCollectionIfNotExist (migrationsCollection m) w with
  | (Some err, w1) => ((0%N, EmptyString, Some err), w1)
  | (None, w1) =>
      match Find (migrationsCollection m) MatchAll IdDescending w1 with
      | (Err ErrNoDocuments, w2) => ((0%N, EmptyString, None), w2)
      | (Err err, w2) => ((0%N, EmptyString, Some err), w2)
      | (Ok cursor, w2) =>
          match Decode cursor w2 with
          | (Err decodeErr, w3) => ((0%N, EmptyString, Some decodeErr), w3)
          | (Ok rec, w3) => ((Rec.Version rec, Rec.Description rec, None), w3)
          end
      end
  end.

(** [Applied] checks if version was applied. *)
Definition Applied (version : uint64) (m : Migrate) (w : World) : bool * World :=
  match createCollectionIfNotExist (migrationsCollection m) w with
  | (Some _, w1) => (false, w1)
  | (None, w1) =>
      match Find (migrationsCollection m) (MatchVersion version) Natural w1 with
      | (Err _, w2) => (false, w2)
      | (Ok cursor, w2) =>
          match Decode cursor w2 with
          | (Err _, w3) => (false, w3)
          | (Ok _, w3) => (true, w3)
          end
      end
  end.

(** [SetVersion] forcibly changes database version to provided. *)
Definition SetVersion (version : uint64) (description : string) (m : Migrate)
  (w : World) : option error * World :=
  let (now, w1) := timeNow w in
  InsertOne (migrationsCollection m) (Rec.mk version description now) w1.

(** Modelled from the spec: the insertion step of [migrationSort], which
    is declared outside migrate.go; [x] goes before the first entry whose
    version is not smaller. *)
Fixpoint insertByVersion (x : Migration) (l : list Migration) : list Migration :=
  match l with
  | [] => [x]
  | y :: l' =>
      if N.leb (Mig.Version x) (Mig.Version y) then x :: y :: l'
      else y :: insertByVersion x l'
  end.

(** Modelled from the spec: [migrationSort] is declared outside migrate.go;
    the catalog is sorted ascending by version, with no secondary key. *)
Fixpoint migrationSort (l : list Migration) : list Migration :=
  match l with
  | [] => []
  | x :: l' => insertByVersion x (migrationSort l')
  end.

(** The sort works in place on [m.migrations]. *)
Definition sorted (m : Migrate) : Migrate :=
  mkMigrate (migrationSort (migrations m)) (migrationsCollection m) (logger m).

(** [if n <= 0 || n > len(m.migrations) { n = len(m.migrations) }]. *)
Definition effective (n : Z) (m : Migrate) : Z :=
  if (n <=? 0) || (Z.of_nat (length (migrations m)) <? n)
  then Z.of_nat (length (migrations m)) else n.

(** The loop of [Up]; [rest] is [m.migrations[i:]], so that the loop ends
    at [[]] where [i < len(m.migrations)] fails. *)
Fixpoint upLoop (m : Migrate) (n : Z) (rest : list Migration) (p : Z) (w : World)
  : option error * World :=
  match rest with
  | [] => (None, w)
  | migration :: rest' =>
      if negb (p <? n) then (None, w) else
      let (applied, w1) := Applied (Mig.Version migration) m w in
      if applied then upLoop m n rest' p w1 else
      match Mig.Up migration with
      | None => upLoop m n rest' p w1
      | Some up =>
          let p := p + 1 in
          let (db, err) := up (store w1) in
          let w2 := note (RanUp (Mig.Version migration)) (setStore db w1) in
          match err with
          | Some e => (Some e, w2)
          | None =>
              let w3 :=
                if logger m
                then Printf (MigratedUp (Mig.Version migration) (Mig.Description migration)) w2
                else w2 in
              match SetVersion (Mig.Version migration) (Mig.Description migration) m w3 with
              | (Some e, w4) => (Some e, w4)
              | (None, w4) => upLoop m n rest' p w4
              end
          end
      end
  end.

(** [Up] performs "up" migrations; it leaves [m.migrations] sorted. *)
Definition Up (n : Z) (m : Migrate) (w : World) : option error * Migrate * World :=
  let n := effective n m in
  let m := sorted m in
  let (err, w') := upLoop m n (migrations m) 0 w in
  (err, m, w').

(** [Migration{Version: 0}]. *)
Definition zeroMigration : Migration := Mig.mk 0%N EmptyString None None.

(** [prevMigration] as [Down] picks it after reverting [m.migrations[i]]. *)
Definition prevMigrationAt (m : Migrate) (i : nat) : Migration :=
  match i with
  | O => zeroMigration
  | S j => default zeroMigration (migrations m !! j)
  end.

(** The loop of [Down]; [k] is [i + 1], so that the loop ends at [0] where
    [i >= 0] fails. *)
Fixpoint downLoop (m : Migrate) (currentVersion : uint64) (n : Z) (k : nat)
  (p : Z) (w : World) : option error * World :=
  match k with
  | O => (None, w)
  | S i =>
      if negb (p <? n) then (None, w) else
      match migrations m !! i with
      | None => (None, w)       (* not reached: i < len(m.migrations) *)
      | Some migration =>
          if N.ltb currentVersion (Mig.Version migration) then downLoop m currentVersion n i p w else
          match Mig.Down migration with
          | None => downLoop m currentVersion n i p w
          | Some down =>
              let p := p + 1 in
              let (db, err) := down (store w) in
              let w1 := note (RanDown (Mig.Version migration)) (setStore db w) in
              match err with
              | Some e => (Some e, w1)
              | None =>
                  let prevMigration := prevMigrationAt m i in
                  let w2 :=
                    if logger m
                    then Printf (MigratedDown (Mig.Version migration) (Mig.Description migration)) w1
                    else w1 in
                  match SetVersion (Mig.Version prevMigration) (Mig.Description prevMigration) m w2 with
                  | (Some e, w3) => (Some e, w3)
                  | (None, w3) => downLoop m currentVersion n i p w3
                  end
              end
          end
      end
  end.

(** [Down] performs "down" migrations; it leaves [m.migrations] sorted when
    it gets past reading the current version. *)
Definition Down (n : Z) (m : Migrate) (w : World) : option error * Migrate * World :=
  match Version m w with
  | ((_, _, Some err), w1) => (Some err, m, w1)
  | ((currentVersion, _, None), w1) =>
      let n := effective n m in
      let m := sorted m in
      let (err, w') := downLoop m currentVersion n (length (migrations m)) 0 w1 in
      (err, m, w')
  end.

(** * Vocabulary of the statements *)

(** The ledger: the Migration Records in the migrations collection. *)
Definition ledger (m : Migrate) (w : World) : list versionRecord :=
  documents (migrationsCollection m) (store w).

(** The world holds no error for a driver call from here on. *)
Definition healthy (w : World) : Prop :=
  ∀ k, (calls w ≤ k)%nat → fault w k = None.

(** The error of the listing of the collections that [w] is about to
    make: the one the world holds for the call, or else the driver's own
    for the filter it is given. *)
Definition listingError (w : World) : error :=
  match fault w (calls w) with
  | Some e => e
  | None => marshalError
  end.

(** Some record of the ledger carries [version]. *)
Definition recorded (version : uint64) (l : list versionRecord) : bool :=
  existsb (matches (MatchVersion version)) l.

(** The version and description that the latest record carries. *)
Definition latest (l : list versionRecord) : uint64 * string :=
  match last l with
  | Some r => (Rec.Version r, Rec.Description r)
  | None => (0%N, EmptyString)
  end.

(** The records [new] were stamped between [w] and [w']. *)
Definition stamped (w w' : World) (new : list versionRecord) : Prop :=
  Forall (λ r, (clock w ≤ Rec.Timestamp r < clock w')%nat) new.

(** [w'] comes after [w] by driver calls that leave the database as it
    is. *)
Record reads (m : Migrate) (w w' : World) : Prop := mkReads {
  rd_fault : fault w' = fault w;
  rd_calls : (calls w ≤ calls w')%nat;
  rd_clock : clock w' = clock w;
  rd_trace : trace w' = trace w;
  rd_output : output w' = output w;
  rd_ledger : ledger m w' = ledger m w;
  rd_others : ∀ name, name ≠ migrationsCollection m → store w' !! name = store w !! name
}.

(** [w'] comes after [w] with records appended to the ledger, stamped
    with the clock readings in between. *)
Record evolves (m : Migrate) (w w' : World) : Prop := mkEvolves {
  ev_fault : fault w' = fault w;
  ev_calls : (calls w ≤ calls w')%nat;
  ev_clock : (clock w ≤ clock w')%nat;
  ev_trace : trace w `prefix_of` trace w';
  ev_ledger : ∃ new, ledger m w' = ledger m w ++ new ∧
      Forall (λ r, (clock w ≤ Rec.Timestamp r < clock w')%nat) new
}.

(** A migration function that leaves the collection [name] alone. *)
Definition keepsLedger (name : string) (f : MigrationFunc) : Prop :=
  ∀ db, (f db).1 !! name = db !! name.

(** The migration functions of the catalog leave the migrations collection
    alone. *)
Definition actionsKeepLedger (m : Migrate) : Prop :=
  ∀ mg f, mg ∈ migrations m →
    Mig.Up mg = Some f ∨ Mig.Down mg = Some f →
    keepsLedger (migrationsCollection m) f.

(** Sorted by version, smallest first. *)
Definition ascending (l : list Migration) : Prop :=
  StronglySorted (λ a b, (Mig.Version a ≤ Mig.Version b)%N) l.

(** The entry has a forward action. *)
Definition hasForward (mg : Migration) : bool :=
  match Mig.Up mg with Some _ => true | None => false end.

(** The record that [Up] writes after applying [mg]. *)
Definition ownRecord (mg : Migration) (r : versionRecord) : Prop :=
  Rec.Version r = Mig.Version mg ∧ Rec.Description r = Mig.Description mg.

(** The record that [Down] writes after reverting the entry at index [i]. *)
Definition predecessorRecord (m : Migrate) (i : nat) (r : versionRecord) : Prop :=
  Rec.Version r = Mig.Version (prevMigrationAt m i) ∧
  Rec.Description r = Mig.Description (prevMigrationAt m i).

(** The forward actions that the records [new] stand for. *)
Definition ranUp (new : list versionRecord) : list event :=
  map (λ r, RanUp (Rec.Version r)) new.

(** The forward actions of the entries [todo]. *)
Definition ranForward (todo : list Migration) : list event :=
  map (λ mg, RanUp (Mig.Version mg)) todo.

(** The backward actions on the catalog entries at the indices [idx]. *)
Definition ranDown (m : Migrate) (idx : list nat) : list event :=
  map (λ i, RanDown (Mig.Version (default zeroMigration (migrations m !! i)))) idx.

(** The backward actions of the entries [todo]. *)
Definition ranBackward (todo : list Migration) : list event :=
  map (λ mg, RanDown (Mig.Version mg)) todo.

(** The lines that a logger gets for the applied entries [done]. *)
Definition logUp (done : list Migration) : list logLine :=
  map (λ mg, MigratedUp (Mig.Version mg) (Mig.Description mg)) done.

(** The lines that a logger gets for the reverted entries [done]. *)
Definition logDown (done : list Migration) : list logLine :=
  map (λ mg, MigratedDown (Mig.Version mg) (Mig.Description mg)) done.

(** * Example worlds and catalogs *)

(** A world with an empty database that holds no error for a driver
    call. *)
Definition emptyWorld : World :=
  mkWorld ∅ 0 (λ _, None) 0 [] [].

(** The same, with the migrations collection there and empty. *)
Definition initializedWorld : World :=
  mkWorld {[ defaultMigrationsCollection := [] ]} 0 (λ _, None) 0 [] [].

(** The world holds one error, [e], for the [k]-th driver call. *)
Definition failingAt (k : nat) (e : error) : nat → option error :=
  λ i, if Nat.eqb i k then Some e else None.

(** An empty database where the second insert of a run of [Up] fails: the
    calls before it are a lookup and an insert for the first entry, and a
    lookup for the second. *)
Definition insertFailsWorld : World :=
  mkWorld ∅ 0 (failingAt 3 (ErrDriver 7)) 0 [] [].

(** A migration function that adds a document to the collection [name]. *)
Definition touch (name : string) : MigrationFunc :=
  λ db, (<[name := documents name db ++ [Rec.mk 0 EmptyString 0]]> db, None).

(** A migration function that fails and changes nothing. *)
Definition failing (code : nat) : MigrationFunc :=
  λ db, (db, Some (ErrAction code)).

(** A migration of version [v] with both actions. *)
Definition both (v : uint64) (d : string) : Migration :=
  Mig.mk v d (Some (touch "up")) (Some (touch "down")).

(** The catalog [1, 2, 3]. *)
Definition catalog123 : list Migration :=
  [both 1 "one"; both 2 "two"; both 3 "three"].

(** The same catalog applied to the empty database. *)
Definition applied123 : option error * Migrate * World :=
  Up AllAvailable (NewMigrate catalog123) emptyWorld.

(** The catalog [10, 20, 30], registered out of order. *)
Definition catalog102030 : list Migration :=
  [both 20 "twenty"; both 30 "thirty"; both 10 "ten"].

(** The same catalog applied to the empty database. *)
Definition applied102030 : option error * Migrate * World :=
  Up AllAvailable (NewMigrate catalog102030) emptyWorld.

(** The catalog [1, 2, 3, 4, 5]. *)
Definition catalog12345 : list Migration :=
  [both 1 "one"; both 2 "two"; both 3 "three"; both 4 "four"; both 5 "five"].

(** A catalog registered as [5, 1, 3]. *)
Definition catalog513 : list Migration :=
  [both 5 "five"; both 1 "one"; both 3 "three"].

(** A catalog where 2 has no backward and 3 no forward action. *)
Definition catalogMixed : list Migration :=
  [both 1 "one"; Mig.mk 2 "two" (Some (touch "up")) None;
   Mig.mk 3 "three" None (Some (touch "down")); both 4 "four"].

(** A catalog whose second forward action fails. *)
Definition catalogFailing : list Migration :=
  [both 1 "a"; Mig.mk 2 "b" (Some (failing 9)) None; both 3 "c"].

(** A database with the record of version 5 alone in the ledger. *)
Definition worldAt5 : World :=
  mkWorld {[ defaultMigrationsCollection := [Rec.mk 5 "five" 0] ]} 0 (λ _, None) 1 [] [].

(** A database with two empty collections. *)
Definition twoCollections : World :=
  mkWorld (<["orders" := []]> (<["users" := []]> ∅)) 0 (λ _, None) 0 [] [].

(** A database whose ledger holds the records of 7 and then 2. *)
Definition worldAt7Then2 : World :=
  mkWorld {[ defaultMigrationsCollection := [Rec.mk 7 "g" 0; Rec.mk 2 "b" 1] ]}
    0 (λ _, None) 2 [] [].

(** A catalog registered as [5, 3]. *)
Definition catalog53 : list Migration :=
  [both 5 "five"; both 3 "three"].

(** * Lemmas *)

Lemma evolves_refl m w : evolves m w w.
Proof.
  constructor; try done. exists []. by rewrite app_nil_r.
Qed.

Lemma evolves_trans m w1 w2 w3 :
  evolves m w1 w2 → evolves m w2 w3 → evolves m w1 w3.
Proof.
  intros [F1 C1 K1 T1 (n1 & L1 & S1)] [F2 C2 K2 T2 (n2 & L2 & S2)].
  constructor; try congruence; try lia.
  - by etrans.
  - exists (n1 ++ n2). split; [by rewrite L2, L1, app_assoc|].
    apply Forall_app; split; eapply Forall_impl; eauto; simpl; intros; lia.
Qed.

Lemma reads_evolves m w w' : reads m w w' → evolves m w w'.
Proof.
  intros [Rf Rc Rk Rt Ro Rl Rs]. constructor; try done; try lia.
  - by rewrite Rt.
  - exists []. by rewrite app_nil_r.
Qed.

Lemma reads_tick m w : reads m w (tick w).
Proof. constructor; simpl; auto. Qed.

Lemma documents_insert_eq name l (db : Database) :
  documents name (<[name := l]> db) = l.
Proof. unfold documents. by rewrite lookup_insert_eq. Qed.

(** The listing is handed mgo's [bson.D{}]: it fails every time. *)
Lemma isCollectionExist_eq name w :
  isCollectionExist name w = (Err (listingError w), tick w).
Proof.
  unfold isCollectionExist, ListCollectionNames, listingError.
  by destruct (fault w (calls w)).
Qed.

Lemma createCollectionIfNotExist_eq name w :
  createCollectionIfNotExist name w = (Some (listingError w), tick w).
Proof. unfold createCollectionIfNotExist. by rewrite isCollectionExist_eq. Qed.

Lemma Version_eq m w :
  Version m w = ((0%N, EmptyString, Some (listingError w)), tick w).
Proof. unfold Version. by rewrite createCollectionIfNotExist_eq. Qed.

Lemma Applied_eq version m w : Applied version m w = (false, tick w).
Proof. unfold Applied. by rewrite createCollectionIfNotExist_eq. Qed.

Lemma Applied_reads version m w : reads m w (Applied version m w).2.
Proof. rewrite Applied_eq. apply reads_tick. Qed.

Lemma Version_reads m w : reads m w (Version m w).2.
Proof. rewrite Version_eq. apply reads_tick. Qed.

(** An error of [Version] comes with the zero version. *)
Lemma Version_error m w e :
  (Version m w).1.2 = Some e → (Version m w).1.1 = (0%N, EmptyString).
Proof. by rewrite Version_eq. Qed.

Lemma recorded_app version l1 l2 :
  recorded version (l1 ++ l2) = recorded version l1 || recorded version l2.
Proof. apply existsb_app. Qed.

Lemma SetVersion_eq version description m w :
  SetVersion version description m w =
  match fault w (calls w) with
  | Some e =>
      (Some e, mkWorld (store w) (S (calls w)) (fault w) (S (clock w)) (trace w) (output w))
  | None =>
      (None, mkWorld
         (<[migrationsCollection m :=
              ledger m w ++ [Rec.mk version description (clock w)]]> (store w))
         (S (calls w)) (fault w) (S (clock w)) (trace w) (output w))
  end.
Proof.
  unfold SetVersion, InsertOne, timeNow; simpl.
  by destruct (fault w (calls w)).
Qed.

Lemma SetVersion_evolves version description m w :
  evolves m w (SetVersion version description m w).2.
Proof.
  rewrite SetVersion_eq. destruct (fault w (calls w)); simpl.
  - constructor; simpl; auto. exists []. by rewrite app_nil_r.
  - constructor; simpl; auto.
    exists [Rec.mk version description (clock w)]. split.
    + unfold ledger at 1. simpl. by rewrite documents_insert_eq.
    + repeat constructor; simpl; lia.
Qed.

Lemma insertByVersion_Permutation x l : insertByVersion x l ≡ₚ x :: l.
Proof.
  induction l as [|y l IH]; simpl; [done|].
  destruct (N.leb _ _); [done|]. rewrite IH. apply Permutation_swap.
Qed.

Lemma migrationSort_Permutation l : migrationSort l ≡ₚ l.
Proof.
  induction l as [|x l IH]; simpl; [done|].
  by rewrite insertByVersion_Permutation, IH.
Qed.

Lemma migrationSort_elem x l : x ∈ migrationSort l ↔ x ∈ l.
Proof. by rewrite migrationSort_Permutation. Qed.

Lemma migrationSort_length l : length (migrationSort l) = length l.
Proof. by rewrite migrationSort_Permutation. Qed.

Lemma insertByVersion_ascending x l : ascending l → ascending (insertByVersion x l).
Proof.
  unfold ascending. induction 1 as [|y l Hl IH Hy]; simpl.
  - repeat constructor.
  - destruct (N.leb_spec (Mig.Version x) (Mig.Version y)) as [Hle|Hlt].
    + constructor; [by constructor|].
      constructor; [done|]. eapply Forall_impl; [exact Hy|]. simpl; intros; lia.
    + constructor; [done|].
      rewrite insertByVersion_Permutation. constructor; [lia|done].
Qed.

Lemma migrationSort_ascending l : ascending (migrationSort l).
Proof.
  induction l; simpl; [constructor|]. by apply insertByVersion_ascending.
Qed.

Lemma insertByVersion_ascending_id x l :
  ascending (x :: l) → insertByVersion x l = x :: l.
Proof.
  intros H. apply StronglySorted_inv in H as [_ H].
  destruct l as [|y l]; simpl; [done|].
  apply Forall_inv in H. by apply N.leb_le in H as ->.
Qed.

Lemma migrationSort_ascending_id l : ascending l → migrationSort l = l.
Proof.
  induction l as [|x l IH]; simpl; [done|]. intros H.
  rewrite IH by (by apply StronglySorted_inv in H as [? _]).
  by apply insertByVersion_ascending_id.
Qed.

Lemma actionsKeepLedger_sorted m : actionsKeepLedger m → actionsKeepLedger (sorted m).
Proof.
  intros H mg f Hin Hf. simpl in *. rewrite migrationSort_elem in Hin.
  by apply (H mg f).
Qed.

Lemma action_evolves m (f : MigrationFunc) ev w :
  keepsLedger (migrationsCollection m) f →
  evolves m w (note ev (setStore (f (store w)).1 w)).
Proof.
  intros K. constructor; simpl; auto.
  - by apply prefix_app_r.
  - exists []. rewrite app_nil_r. split; [|done].
    unfold ledger, documents; simpl. by rewrite K.
Qed.

Lemma Printf_evolves m line w : evolves m w (Printf line w).
Proof.
  constructor; simpl; auto. exists []. by rewrite app_nil_r.
Qed.

Lemma logged_evolves m line w :
  evolves m w (if logger m then Printf line w else w).
Proof. destruct (logger m); [apply Printf_evolves | apply evolves_refl]. Qed.

Lemma upLoop_evolves m n rest p w :
  (∀ mg f, mg ∈ rest → Mig.Up mg = Some f → keepsLedger (migrationsCollection m) f) →
  evolves m w (upLoop m n rest p w).2.
Proof.
  revert p w. induction rest as [|mg rest IH]; intros p w K; simpl.
  { apply evolves_refl. }
  assert (∀ p w, evolves m w (upLoop m n rest p w).2) as IH'.
  { intros p' w'. apply IH. intros mg' f Hin. apply K. by right. }
  destruct (p <? n); simpl; [|apply evolves_refl].
  pose proof (reads_evolves _ _ _ (Applied_reads (Mig.Version mg) m w)) as R.
  destruct (Applied _ m w) as [applied w1]; simpl in R.
  destruct applied; [by eapply evolves_trans|].
  destruct (Mig.Up mg) as [up|] eqn:Hup; [|by eapply evolves_trans].
  pose proof (action_evolves m up (RanUp (Mig.Version mg)) w1) as A.
  destruct (up (store w1)) as [db err]; simpl in A.
  assert (evolves m w (note (RanUp (Mig.Version mg)) (setStore db w1))) as E.
  { eapply evolves_trans; [exact R|]. apply A. eapply K; [by left|done]. }
  destruct err as [e|]; simpl; [done|].
  match goal with |- context [SetVersion ?v ?d m ?w3] =>
    pose proof (SetVersion_evolves v d m w3) as V;
    pose proof (logged_evolves m (MigratedUp v d)
                  (note (RanUp (Mig.Version mg)) (setStore db w1))) as L;
    destruct (SetVersion v d m w3) as [[e|] w4]; simpl in V
  end.
  - eauto using evolves_trans.
  - eapply evolves_trans; [|apply IH']. eauto using evolves_trans.
Qed.

Lemma downLoop_evolves m currentVersion n k p w :
  (∀ mg f, mg ∈ migrations m → Mig.Down mg = Some f →
     keepsLedger (migrationsCollection m) f) →
  evolves m w (downLoop m currentVersion n k p w).2.
Proof.
  intros K. revert p w. induction k as [|i IH]; intros p w; simpl.
  { apply evolves_refl. }
  destruct (p <? n); simpl; [|apply evolves_refl].
  destruct (migrations m !! i) as [mg|] eqn:Hi; [|apply evolves_refl].
  destruct (N.ltb _ _); [apply IH|].
  destruct (Mig.Down mg) as [down|] eqn:Hdown; [|apply IH].
  pose proof (action_evolves m down (RanDown (Mig.Version mg)) w) as A.
  destruct (down (store w)) as [db err]; simpl in A.
  assert (evolves m w (note (RanDown (Mig.Version mg)) (setStore db w))) as E.
  { apply A. eapply K; [|done]. by eapply list_elem_of_lookup_2. }
  destruct err as [e|]; simpl; [done|].
  match goal with |- context [SetVersion ?v ?d m ?w2] =>
    pose proof (SetVersion_evolves v d m w2) as V;
    pose proof (logged_evolves m (MigratedDown (Mig.Version mg) (Mig.Description mg))
                  (note (RanDown (Mig.Version mg)) (setStore db w))) as L;
    destruct (SetVersion v d m w2) as [[e|] w3]; simpl in V
  end.
  - eauto using evolves_trans.
  - eapply evolves_trans; [|apply IH]. eauto using evolves_trans.
Qed.

Lemma evolves_sorted m w w' : evolves (sorted m) w w' ↔ evolves m w w'.
Proof. split; intros []; by constructor. Qed.

Lemma Up_evolves n m w :
  actionsKeepLedger m → evolves m w (Up n m w).2.
Proof.
  intros K. unfold Up.
  pose proof (upLoop_evolves (sorted m) (effective n m) (migrations (sorted m)) 0 w) as E.
  destruct (upLoop _ _ _ _ _) as [err w']; simpl in *.
  apply evolves_sorted, E. intros mg f Hin Hf.
  apply (actionsKeepLedger_sorted m K mg f Hin). by left.
Qed.

Lemma Down_evolves n m w :
  actionsKeepLedger m → evolves m w (Down n m w).2.
Proof.
  intros K. unfold Down.
  pose proof (reads_evolves _ _ _ (Version_reads m w)) as R.
  destruct (Version m w) as [[[cv d] [e|]] w1]; simpl in *; [done|].
  pose proof (downLoop_evolves (sorted m) cv (effective n m)
                (length (migrations (sorted m))) 0 w1) as E.
  destruct (downLoop _ _ _ _ _ _) as [err w']; simpl in *.
  eapply evolves_trans; [exact R|].
  apply evolves_sorted, E. intros mg f Hin Hf.
  apply (actionsKeepLedger_sorted m K mg f Hin). by right.
Qed.

Lemma keepsLedger_touch name name' : name ≠ name' → keepsLedger name' (touch name).
Proof. intros Hne db. simpl. by rewrite lookup_insert_ne. Qed.

Lemma actionsKeepLedger_both l :
  Forall (λ mg, ∃ v d, mg = both v d) l → actionsKeepLedger (NewMigrate l).
Proof.
  intros Hall mg f Hin Hf. simpl in *.
  rewrite Forall_forall in Hall. destruct (Hall mg Hin) as (v & d & ->).
  simpl in Hf. destruct Hf as [[= <-]|[= <-]]; by apply keepsLedger_touch.
Qed.

Lemma logged_same m line w :
  let w' := if logger m then Printf line w else w in
  store w' = store w ∧ calls w' = calls w ∧ fault w' = fault w ∧
  clock w' = clock w ∧ trace w' = trace w.
Proof. by destruct (logger m). Qed.

(** Names the world after the logging step and keeps what is known of it. *)
Ltac after_logging w3 :=
  match goal with
  | |- context [SetVersion _ _ ?m (if logger ?m then Printf ?line ?w2 else ?w2)] =>
      let Hsame := fresh "Hsame" in
      pose proof (logged_same m line w2) as Hsame;
      set (w3 := if logger m then Printf line w2 else w2) in *;
      clearbody w3; simpl in Hsame;
      destruct Hsame as (Hstore & Hcalls & Hfault & Hclock & Htrace)
  end.

Lemma upLoop_progress m n rest p w :
  (∀ mg f, mg ∈ rest → Mig.Up mg = Some f → keepsLedger (migrationsCollection m) f) →
  ∃ new, ledger m (upLoop m n rest p w).2 = ledger m w ++ new ∧
    match (upLoop m n rest p w).1 with
    | None => trace (upLoop m n rest p w).2 = trace w ++ ranUp new
    | Some _ => ∃ v, trace (upLoop m n rest p w).2 = trace w ++ ranUp new ++ [RanUp v]
    end.
Proof.
  revert p w. induction rest as [|mg rest IH]; intros p w K; simpl.
  { exists []. by rewrite !app_nil_r. }
  assert (∀ mg f, mg ∈ rest → Mig.Up mg = Some f →
            keepsLedger (migrationsCollection m) f) as K'.
  { intros mg' f Hin. apply K. by right. }
  destruct (p <? n); simpl; [|exists []; by rewrite !app_nil_r].
  pose proof (Applied_reads (Mig.Version mg) m w) as R.
  destruct (Applied _ m w) as [applied w1]; simpl in R.
  destruct R as [_ _ _ Rt _ Rl _].
  destruct applied.
  { destruct (IH p w1 K') as (new & Hl & Ht). exists new. by rewrite Hl, Rl, <- Rt. }
  destruct (Mig.Up mg) as [up|] eqn:Hup.
  2: { destruct (IH p w1 K') as (new & Hl & Ht). exists new. by rewrite Hl, Rl, <- Rt. }
  pose proof (K mg up ltac:(by left) Hup (store w1)) as Kup.
  destruct (up (store w1)) as [db err]; simpl in Kup.
  destruct err as [e|]; simpl.
  { exists []. rewrite app_nil_r. split.
    - unfold ledger, documents in *; simpl. by rewrite Kup.
    - exists (Mig.Version mg). by rewrite Rt. }
  after_logging w3.
  assert (ledger m w3 = ledger m w) as Hl3.
  { rewrite <- Rl. unfold ledger, documents. by rewrite Hstore, Kup. }
  rewrite SetVersion_eq, Hcalls, Hfault, Hclock, Htrace, Hl3.
  destruct (fault w1 (calls w1)); simpl.
  { exists []. rewrite app_nil_r. split.
    - unfold ledger at 1; simpl. exact Hl3.
    - exists (Mig.Version mg). by rewrite Rt. }
  match goal with |- context [upLoop m n rest (p + 1) ?w4] =>
    destruct (IH (p + 1) w4 K') as (new & Hl & Ht)
  end.
  exists (Rec.mk (Mig.Version mg) (Mig.Description mg) (clock w1) :: new).
  split.
  - rewrite Hl. unfold ledger at 1; simpl. rewrite documents_insert_eq.
    by rewrite <- app_assoc.
  - simpl in Ht. rewrite <- Rt.
    revert Ht. destruct (fst (upLoop m n rest (p + 1) _)); intros Ht.
    + destruct Ht as [v Ht]. exists v. rewrite Ht. simpl. by rewrite <- !app_assoc.
    + rewrite Ht. simpl. by rewrite <- !app_assoc.
Qed.

Lemma downLoop_progress m currentVersion n k p w :
  (∀ mg f, mg ∈ migrations m → Mig.Down mg = Some f →
     keepsLedger (migrationsCollection m) f) →
  ∃ idx new,
    ledger m (downLoop m currentVersion n k p w).2 = ledger m w ++ new ∧
    Forall2 (predecessorRecord m) idx new ∧
    match (downLoop m currentVersion n k p w).1 with
    | None => trace (downLoop m currentVersion n k p w).2 = trace w ++ ranDown m idx
    | Some _ => ∃ i, trace (downLoop m currentVersion n k p w).2 =
                       trace w ++ ranDown m (idx ++ [i])
    end.
Proof.
  intros K. revert p w. induction k as [|i IH]; intros p w; simpl.
  { exists [], []. by rewrite !app_nil_r. }
  destruct (p <? n); simpl; [|exists [], []; by rewrite !app_nil_r].
  destruct (migrations m !! i) as [mg|] eqn:Hi;
    [|exists [], []; by rewrite !app_nil_r].
  destruct (N.ltb _ _); [apply IH|].
  destruct (Mig.Down mg) as [down|] eqn:Hdown; [|apply IH].
  pose proof (K mg down ltac:(by eapply list_elem_of_lookup_2) Hdown (store w)) as Kd.
  destruct (down (store w)) as [db err]; simpl in Kd.
  assert (RanDown (Mig.Version mg) =
          RanDown (Mig.Version (default zeroMigration (migrations m !! i)))) as Hev.
  { by rewrite Hi. }
  destruct err as [e|]; simpl.
  { exists [], []. rewrite app_nil_r. split; [|split; [constructor|]].
    - unfold ledger, documents in *; simpl. by rewrite Kd.
    - exists i. simpl. by rewrite Hev. }
  after_logging w2.
  assert (ledger m w2 = ledger m w) as Hl2.
  { unfold ledger, documents. by rewrite Hstore, Kd. }
  rewrite SetVersion_eq, Hcalls, Hfault, Hclock, Htrace, Hl2.
  destruct (fault w (calls w)); simpl.
  { exists [], []. rewrite app_nil_r. split; [|split; [constructor|]].
    - unfold ledger at 1; simpl. exact Hl2.
    - exists i. simpl. by rewrite Hev. }
  match goal with |- context [downLoop m currentVersion n i (p + 1) ?w3] =>
    destruct (IH (p + 1) w3) as (idx & new & Hl & Hp & Ht)
  end.
  exists (i :: idx),
    (Rec.mk (Mig.Version (prevMigrationAt m i)) (Mig.Description (prevMigrationAt m i))
       (clock w) :: new).
  split; [|split].
  - rewrite Hl. unfold ledger at 1; simpl. rewrite documents_insert_eq.
    by rewrite <- app_assoc.
  - constructor; [done|exact Hp].
  - simpl in Ht.
    revert Ht. destruct (fst (downLoop m currentVersion n i (p + 1) _)); intros Ht.
    + destruct Ht as [j Ht]. exists j. rewrite Ht. simpl.
      by rewrite Hev, <- !app_assoc.
    + rewrite Ht. simpl. by rewrite Hev, <- !app_assoc.
Qed.

(** Settles [actionsKeepLedger] for a catalog written out. *)
Ltac catalog_keeps :=
  let mg := fresh "mg" in let f := fresh "f" in
  let Hin := fresh "Hin" in let Hf := fresh "Hf" in let db := fresh "db" in
  intros mg f Hin Hf db; simpl in Hin;
  repeat (apply elem_of_cons in Hin as [->|Hin]);
  try (by apply elem_of_nil in Hin);
  simpl in Hf; destruct Hf as [Hf|Hf]; try discriminate Hf;
  injection Hf as <-; simpl; try reflexivity; by rewrite lookup_insert_ne.

Lemma effective_bounds n m :
  (0 < n ≤ Z.of_nat (length (migrations m)) → effective n m = n) ∧
  (n ≤ 0 ∨ Z.of_nat (length (migrations m)) < n →
     effective n m = Z.of_nat (length (migrations m))).
Proof.
  unfold effective. split; intros H.
  - destruct (Z.leb_spec n 0), (Z.ltb_spec (Z.of_nat (length (migrations m))) n);
      simpl; lia.
  - destruct (Z.leb_spec n 0), (Z.ltb_spec (Z.of_nat (length (migrations m))) n);
      simpl; lia.
Qed.

Lemma Up_eq n m w :
  Up n m w =
  ((upLoop (sorted m) (effective n m) (migrations (sorted m)) 0 w).1, sorted m,
   (upLoop (sorted m) (effective n m) (migrations (sorted m)) 0 w).2).
Proof. unfold Up. by destruct (upLoop _ _ _ _ _). Qed.

Lemma Down_eq n m w :
  Down n m w =
  match (Version m w).1.2 with
  | Some err => (Some err, m, (Version m w).2)
  | None =>
      ((downLoop (sorted m) (Version m w).1.1.1 (effective n m)
          (length (migrations (sorted m))) 0 (Version m w).2).1,
       sorted m,
       (downLoop (sorted m) (Version m w).1.1.1 (effective n m)
          (length (migrations (sorted m))) 0 (Version m w).2).2)
  end.
Proof.
  unfold Down. destruct (Version m w) as [[[cv d] [e|]] w1]; simpl; [done|].
  by destruct (downLoop _ _ _ _ _ _).
Qed.

Lemma Up_progress n m w :
  actionsKeepLedger m →
  ∃ new, ledger m (Up n m w).2 = ledger m w ++ new ∧
    match (Up n m w).1.1 with
    | None => trace (Up n m w).2 = trace w ++ ranUp new
    | Some _ => ∃ v, trace (Up n m w).2 = trace w ++ ranUp new ++ [RanUp v]
    end.
Proof.
  intros K. rewrite Up_eq. cbn [fst snd].
  apply (upLoop_progress (sorted m)). intros mg f Hin Hf.
  apply (actionsKeepLedger_sorted m K mg f Hin). by left.
Qed.

Lemma Down_progress n m w :
  actionsKeepLedger m →
  ∃ idx new, ledger m (Down n m w).2 = ledger m w ++ new ∧
    Forall2 (predecessorRecord (sorted m)) idx new ∧
    match (Down n m w).1.1 with
    | None => trace (Down n m w).2 = trace w ++ ranDown (sorted m) idx
    | Some _ =>
        (new = [] ∧ trace (Down n m w).2 = trace w) ∨
        ∃ i, trace (Down n m w).2 = trace w ++ ranDown (sorted m) (idx ++ [i])
    end.
Proof.
  intros K. unfold Down.
  pose proof (Version_reads m w) as R.
  destruct (Version m w) as [[[cv d] [e|]] w1]; simpl in *.
  { exists [], []. rewrite app_nil_r. split; [apply R|]. split; [constructor|].
    left. split; [done|apply R]. }
  pose proof (downLoop_progress (sorted m) cv (effective n m)
                (length (migrations (sorted m))) 0 w1) as P.
  destruct (downLoop _ _ _ _ _ _) as [err w']; simpl in *.
  destruct P as (idx & new & Hl & Hp & Ht).
  { intros mg f Hin Hf. apply (actionsKeepLedger_sorted m K mg f Hin). by right. }
  exists idx, new. destruct R as [_ _ _ Rt _ Rl _].
  split; [by rewrite <- Rl|]. split; [done|].
  destruct err; [right|]; by rewrite <- Rt.
Qed.

Lemma healthy_SetVersion version description m w :
  healthy w →
  SetVersion version description m w =
    (None, mkWorld
       (<[migrationsCollection m :=
            ledger m w ++ [Rec.mk version description (clock w)]]> (store w))
       (S (calls w)) (fault w) (S (clock w)) (trace w) (output w)) ∧
  healthy (SetVersion version description m w).2.
Proof.
  intros Hw. rewrite SetVersion_eq, (Hw (calls w)) by lia. split; [done|].
  intros k Hk. simpl in *. apply Hw. lia.
Qed.

Lemma documents_insert_ne name name' l (db : Database) :
  name ≠ name' → documents name' (<[name := l]> db) = documents name' db.
Proof. intros. unfold documents. by rewrite lookup_insert_ne. Qed.

Lemma logged_output m line w :
  output (if logger m then Printf line w else w) =
  output w ++ (if logger m then [line] else []).
Proof. destruct (logger m); simpl; [done|by rewrite app_nil_r]. Qed.

Lemma tail_of_run {A} (x : A) (ok ran : list A) :
  ok = ran ∨ (∃ y, ran = ok ++ [y]) →
  x :: ok = x :: ran ∨ (∃ y, x :: ran = (x :: ok) ++ [y]).
Proof. intros [->|[y ->]]; [by left|right; by exists y]. Qed.

(** What a pass of [Up] runs and logs, whatever fails: [ran] are the entries
    whose forward action was called, [ok] those whose action succeeded. *)
Lemma upLoop_runs m n rest p w :
  ∃ ran ok,
    trace (upLoop m n rest p w).2 = trace w ++ ranForward ran ∧
    output (upLoop m n rest p w).2 = output w ++ (if logger m then logUp ok else []) ∧
    ran `sublist_of` rest ∧
    Forall (λ mg, Mig.Up mg ≠ None) ran ∧
    Z.of_nat (length ran) ≤ Z.max 0 (n - p) ∧
    (ok = ran ∨ ∃ mg, ran = ok ++ [mg]) ∧
    ((upLoop m n rest p w).1 = None → ok = ran).
Proof.
  assert (∀ w0 : World, output w0 = output w0 ++ (if logger m then logUp [] else []))
    as Hnil by (intros w0; destruct (logger m); simpl; by rewrite app_nil_r).
  revert p w. induction rest as [|mg rest IH]; intros p w; simpl upLoop.
  { exists [], []. simpl. rewrite app_nil_r. repeat split; auto; try constructor; lia. }
  destruct (Z.ltb_spec p n) as [Hp|Hp]; simpl negb; cbv iota.
  2: { exists [], []. simpl. rewrite app_nil_r.
       repeat split; auto; try constructor; try lia. apply sublist_nil_l. }
  pose proof (Applied_reads (Mig.Version mg) m w) as R.
  destruct (Applied _ m w) as [applied w1]; simpl in R.
  destruct R as [_ _ _ Rt Ro _ _].
  assert (∃ ran ok,
            trace (upLoop m n rest p w1).2 = trace w ++ ranForward ran ∧
            output (upLoop m n rest p w1).2 =
              output w ++ (if logger m then logUp ok else []) ∧
            ran `sublist_of` mg :: rest ∧
            Forall (λ mg, Mig.Up mg ≠ None) ran ∧
            Z.of_nat (length ran) ≤ Z.max 0 (n - p) ∧
            (ok = ran ∨ ∃ mg, ran = ok ++ [mg]) ∧
            ((upLoop m n rest p w1).1 = None → ok = ran)) as Skip.
  { destruct (IH p w1) as (ran & ok & Ht & Ho & Hs & Hf & Hb & Hr & He).
    exists ran, ok. rewrite Ht, Ho, Rt, Ro.
    repeat split; auto. by apply sublist_cons. }
  destruct applied; [exact Skip|].
  destruct (Mig.Up mg) as [up|] eqn:Hup; [|exact Skip]. clear Skip.
  destruct (up (store w1)) as [db err].
  destruct err as [e|]; simpl.
  { exists [mg], []. simpl. rewrite Rt, Ro.
    split; [done|]. split; [apply Hnil|].
    split; [apply sublist_skip, sublist_nil_l|].
    split; [constructor; [by rewrite Hup|constructor]|].
    split; [lia|]. split; [right; by exists mg|done]. }
  pose proof (logged_output m (MigratedUp (Mig.Version mg) (Mig.Description mg))
                (note (RanUp (Mig.Version mg)) (setStore db w1))) as Hout.
  after_logging w3. simpl in Hout.
  rewrite SetVersion_eq. destruct (fault w3 (calls w3)); simpl.
  { exists [mg], [mg]. simpl. rewrite Htrace, Hout, Rt, Ro. simpl.
    split; [done|]. split; [by destruct (logger m)|].
    split; [apply sublist_skip, sublist_nil_l|].
    split; [constructor; [by rewrite Hup|constructor]|].
    split; [lia|]. split; [by left|done]. }
  match goal with |- context [upLoop m n rest (p + 1) ?w'] => set (w4 := w') end.
  assert (trace w4 = trace w ++ [RanUp (Mig.Version mg)]) as Ht4.
  { unfold w4; simpl. by rewrite Htrace, Rt. }
  assert (output w4 = output w ++
            (if logger m then [MigratedUp (Mig.Version mg) (Mig.Description mg)] else []))
    as Ho4.
  { unfold w4; simpl. by rewrite Hout, Ro. }
  destruct (IH (p + 1) w4) as (ran & ok & Ht & Ho & Hs & Hf & Hb & Hr & He).
  exists (mg :: ran), (mg :: ok). rewrite Ht, Ho, Ht4, Ho4.
  simpl. split; [by rewrite <- app_assoc|].
  split; [rewrite <- app_assoc; by destruct (logger m)|].
  split; [by apply sublist_skip|].
  split; [constructor; [by rewrite Hup|done]|].
  split; [lia|]. split; [by apply tail_of_run|].
  intros Hret. by rewrite (He Hret).
Qed.

(** The same for a pass of [Down], where an entry is only reverted when
    its version is not above [currentVersion]. *)
Lemma downLoop_runs m currentVersion n k p w :
  ∃ ran ok,
    trace (downLoop m currentVersion n k p w).2 = trace w ++ ranBackward ran ∧
    output (downLoop m currentVersion n k p w).2 =
      output w ++ (if logger m then logDown ok else []) ∧
    ran `sublist_of` rev (take k (migrations m)) ∧
    Forall (λ mg, Mig.Down mg ≠ None ∧ (Mig.Version mg ≤ currentVersion)%N) ran ∧
    Z.of_nat (length ran) ≤ Z.max 0 (n - p) ∧
    (ok = ran ∨ ∃ mg, ran = ok ++ [mg]) ∧
    ((downLoop m currentVersion n k p w).1 = None → ok = ran).
Proof.
  assert (∀ w0 : World, output w0 = output w0 ++ (if logger m then logDown [] else []))
    as Hnil by (intros w0; destruct (logger m); simpl; by rewrite app_nil_r).
  assert (∀ q (w0 : World) l, ∃ ran ok : list Migration,
            trace w0 = trace w0 ++ ranBackward ran ∧
            output w0 = output w0 ++ (if logger m then logDown ok else []) ∧
            ran `sublist_of` l ∧
            Forall (λ mg, Mig.Down mg ≠ None ∧ (Mig.Version mg ≤ currentVersion)%N) ran ∧
            Z.of_nat (length ran) ≤ Z.max 0 (n - q) ∧
            (ok = ran ∨ ∃ mg, ran = ok ++ [mg]) ∧
            ((None : option error) = None → ok = ran)) as Stop.
  { intros q w0 l. exists [], []. simpl. rewrite app_nil_r.
    repeat split; auto; try constructor; try lia. apply sublist_nil_l. }
  revert p w. induction k as [|i IH]; intros p w; simpl downLoop.
  { apply Stop. }
  destruct (Z.ltb_spec p n) as [Hp|Hp]; simpl negb; cbv iota; [|apply Stop].
  destruct (migrations m !! i) as [mg|] eqn:Hi; [|apply Stop].
  rewrite (take_S_r _ _ _ Hi), rev_unit.
  assert (∃ ran ok,
            trace (downLoop m currentVersion n i p w).2 = trace w ++ ranBackward ran ∧
            output (downLoop m currentVersion n i p w).2 =
              output w ++ (if logger m then logDown ok else []) ∧
            ran `sublist_of` mg :: rev (take i (migrations m)) ∧
            Forall (λ mg, Mig.Down mg ≠ None ∧ (Mig.Version mg ≤ currentVersion)%N) ran ∧
            Z.of_nat (length ran) ≤ Z.max 0 (n - p) ∧
            (ok = ran ∨ ∃ mg, ran = ok ++ [mg]) ∧
            ((downLoop m currentVersion n i p w).1 = None → ok = ran)) as Skip.
  { destruct (IH p w) as (ran & ok & Ht & Ho & Hs & Hf & Hb & Hr & He).
    exists ran, ok. repeat split; auto. by apply sublist_cons. }
  destruct (N.ltb_spec currentVersion (Mig.Version mg)) as [Hlt|Hle]; [exact Skip|].
  destruct (Mig.Down mg) as [down|] eqn:Hdown; [|exact Skip]. clear Skip.
  destruct (down (store w)) as [db err].
  destruct err as [e|]; simpl.
  { exists [mg], []. simpl.
    split; [done|]. split; [apply Hnil|].
    split; [apply sublist_skip, sublist_nil_l|].
    split; [constructor; [by rewrite Hdown|constructor]|].
    split; [lia|]. split; [right; by exists mg|done]. }
  pose proof (logged_output m (MigratedDown (Mig.Version mg) (Mig.Description mg))
                (note (RanDown (Mig.Version mg)) (setStore db w))) as Hout.
  after_logging w2. simpl in Hout.
  rewrite SetVersion_eq. destruct (fault w2 (calls w2)); simpl.
  { exists [mg], [mg]. simpl. rewrite Htrace, Hout. simpl.
    split; [done|]. split; [by destruct (logger m)|].
    split; [apply sublist_skip, sublist_nil_l|].
    split; [constructor; [by rewrite Hdown|constructor]|].
    split; [lia|]. split; [by left|done]. }
  match goal with |- context [downLoop m currentVersion n i (p + 1) ?w'] =>
    set (w3 := w') end.
  assert (trace w3 = trace w ++ [RanDown (Mig.Version mg)]) as Ht3.
  { unfold w3; simpl. by rewrite Htrace. }
  assert (output w3 = output w ++
            (if logger m then [MigratedDown (Mig.Version mg) (Mig.Description mg)] else []))
    as Ho3.
  { unfold w3; simpl. by rewrite Hout. }
  destruct (IH (p + 1) w3) as (ran & ok & Ht & Ho & Hs & Hf & Hb & Hr & He).
  exists (mg :: ran), (mg :: ok). rewrite Ht, Ho, Ht3, Ho3.
  simpl. split; [by rewrite <- app_assoc|].
  split; [rewrite <- app_assoc; by destruct (logger m)|].
  split; [by apply sublist_skip|].
  split; [constructor; [by rewrite Hdown|done]|].
  split; [lia|]. split; [by apply tail_of_run|].
  intros Hret. by rewrite (He Hret).
Qed.

Lemma effective_range n m :
  0 ≤ effective n m ≤ Z.of_nat (length (migrations m)).
Proof.
  unfold effective.
  destruct (Z.leb_spec n 0), (Z.ltb_spec (Z.of_nat (length (migrations m))) n);
    simpl; lia.
Qed.

Lemma upLoop_error m n rest p w e :
  (upLoop m n rest p w).1 = Some e →
  (length (trace w) < length (trace (upLoop m n rest p w).2))%nat.
Proof.
  destruct (upLoop_runs m n rest p w) as (ran & ok & Ht & _ & _ & _ & _ & Hr & He).
  intros Hret. rewrite Ht, length_app.
  destruct ran as [|mg ran]; [|simpl; lia].
  exfalso. revert p w Ht He Hret Hr.
  induction rest as [|mg rest IH]; intros p w; simpl upLoop; [done|].
  destruct (p <? n); simpl negb; cbv iota; [|done].
  pose proof (rd_trace _ _ _ (Applied_reads (Mig.Version mg) m w)) as Rt.
  destruct (Applied _ m w) as [applied w1]; simpl in Rt.
  destruct applied; [rewrite <- Rt; apply IH|].
  destruct (Mig.Up mg) as [up|]; [|rewrite <- Rt; apply IH].
  destruct (up (store w1)) as [db err]. destruct err as [e'|]; simpl.
  { rewrite Rt, app_nil_r. intros Ht _ _ _.
    apply (f_equal length) in Ht. rewrite length_app in Ht. simpl in Ht. lia. }
  after_logging w3. rewrite SetVersion_eq.
  destruct (fault w3 (calls w3)); simpl.
  { rewrite Htrace, Rt, app_nil_r. simpl. intros Ht _ _ _.
    apply (f_equal length) in Ht. rewrite length_app in Ht. simpl in Ht. lia. }
  match goal with |- context [upLoop m n rest (p + 1) ?w'] =>
    destruct (upLoop_runs m n rest (p + 1) w') as (ran & ok' & Ht' & _)
  end.
  rewrite Ht'. simpl. rewrite Htrace, Rt, !app_nil_r. simpl. intros Ht _ _ _.
  apply (f_equal length) in Ht. rewrite !length_app in Ht. simpl in Ht. lia.
Qed.

Lemma downLoop_error m currentVersion n k p w e :
  (downLoop m currentVersion n k p w).1 = Some e →
  (length (trace w) < length (trace (downLoop m currentVersion n k p w).2))%nat.
Proof.
  revert p w. induction k as [|i IH]; intros p w; simpl downLoop; [done|].
  destruct (p <? n); simpl negb; cbv iota; [|done].
  destruct (migrations m !! i) as [mg|]; [|done].
  destruct (N.ltb _ _); [apply IH|].
  destruct (Mig.Down mg) as [down|]; [|apply IH].
  destruct (down (store w)) as [db err]. destruct err as [e'|]; simpl.
  { intros _. rewrite length_app. simpl. lia. }
  after_logging w2. rewrite SetVersion_eq.
  destruct (fault w2 (calls w2)); simpl.
  { intros _. rewrite Htrace, length_app. simpl. lia. }
  match goal with |- context [downLoop m currentVersion n i (p + 1) ?w'] =>
    destruct (downLoop_runs m currentVersion n i (p + 1) w') as (ran & ok & Ht & _)
  end.
  intros _. rewrite Ht. simpl. rewrite Htrace, !length_app. simpl. lia.
Qed.

Lemma healthy_listingError w : healthy w → listingError w = marshalError.
Proof. intros Hw. unfold listingError. by rewrite (Hw (calls w)) by lia. Qed.

(** [Down] ends where it reads the current version. *)
Lemma Down_fails n m w : Down n m w = (Some (listingError w), m, tick w).
Proof. unfold Down. by rewrite Version_eq. Qed.

(** An entry with a forward action has it called, whatever the ledger
    holds. *)
Lemma upLoop_runs_head m n mg rest p w up :
  p < n →
  Mig.Up mg = Some up →
  trace w ++ [RanUp (Mig.Version mg)] `prefix_of` trace (upLoop m n (mg :: rest) p w).2.
Proof.
  intros Hp Hup. apply Z.ltb_lt in Hp.
  simpl upLoop. rewrite Hp, Applied_eq, Hup. simpl negb. cbv iota.
  destruct (up (store (tick w))) as [db err]. destruct err as [e'|]; simpl.
  { done. }
  after_logging w3. rewrite SetVersion_eq.
  destruct (fault w3 (calls w3)); simpl.
  { by rewrite Htrace. }
  match goal with |- context [upLoop m n rest (p + 1) ?w'] =>
    destruct (upLoop_runs m n rest (p + 1) w') as (ran & ok & Ht & _)
  end.
  rewrite Ht. simpl. rewrite Htrace. simpl. by apply prefix_app_r.
Qed.

Lemma filter_hasForward_cons mg rest :
  List.filter hasForward (mg :: rest) =
  match Mig.Up mg with
  | Some _ => mg :: List.filter hasForward rest
  | None => List.filter hasForward rest
  end.
Proof. simpl. unfold hasForward at 1. by destruct (Mig.Up mg). Qed.

(** What a pass of [Up] runs: the first entries of [rest] that have a
    forward action, as many as the count allows when no step fails. *)
Lemma upLoop_first m n rest p w :
  ∃ k,
    trace (upLoop m n rest p w).2 =
      trace w ++ ranForward (take k (List.filter hasForward rest)) ∧
    Z.of_nat k ≤ Z.max 0 (n - p) ∧
    ((upLoop m n rest p w).1 = None →
       take k (List.filter hasForward rest) =
       take (Z.to_nat (n - p)) (List.filter hasForward rest)).
Proof.
  revert p w. induction rest as [|mg rest IH]; intros p w; simpl upLoop.
  { exists 0%nat. simpl. rewrite app_nil_r. split; [done|]. split; [lia|].
    intros _. by rewrite take_nil. }
  destruct (Z.ltb_spec p n) as [Hp|Hp]; simpl negb; cbv iota.
  2: { exists 0%nat. simpl. rewrite app_nil_r. split; [done|]. split; [lia|].
       intros _. by replace (Z.to_nat (n - p)) with 0%nat by lia. }
  rewrite Applied_eq, filter_hasForward_cons. cbv iota.
  destruct (Mig.Up mg) as [up|] eqn:Hup.
  2: { destruct (IH p (tick w)) as (k & Ht & Hk & He). by exists k. }
  destruct (up (store (tick w))) as [db err]. destruct err as [e|]; simpl.
  { exists 1%nat. simpl. split; [done|]. split; [lia|done]. }
  after_logging w3. rewrite SetVersion_eq.
  destruct (fault w3 (calls w3)); simpl.
  { exists 1%nat. simpl. rewrite Htrace. split; [done|]. split; [lia|done]. }
  match goal with |- context [upLoop m n rest (p + 1) ?w'] => set (w4 := w') end.
  assert (trace w4 = trace w ++ [RanUp (Mig.Version mg)]) as Ht4.
  { unfold w4; simpl. by rewrite Htrace. }
  destruct (IH (p + 1) w4) as (k & Ht & Hk & He).
  exists (S k). rewrite Ht, Ht4. simpl. split; [by rewrite <- app_assoc|].
  split; [lia|]. intros Hret.
  replace (Z.to_nat (n - p)) with (S (Z.to_nat (n - (p + 1)))) by lia.
  simpl. by rewrite (He Hret).
Qed.

Lemma Up_first n m w :
  ∃ k,
    trace (Up n m w).2 =
      trace w ++ ranForward (take k (List.filter hasForward (migrationSort (migrations m)))) ∧
    Z.of_nat k ≤ effective n m ∧
    ((Up n m w).1.1 = None →
       take k (List.filter hasForward (migrationSort (migrations m))) =
       take (Z.to_nat (effective n m))
         (List.filter hasForward (migrationSort (migrations m)))).
Proof.
  rewrite Up_eq. cbn [fst snd].
  destruct (upLoop_first (sorted m) (effective n m) (migrations (sorted m)) 0 w)
    as (k & Ht & Hk & He).
  pose proof (effective_range n m). rewrite Z.sub_0_r in *.
  exists k. repeat split; auto. lia.
Qed.

Lemma filter_length_le {A} (f : A → bool) l : (length (List.filter f l) ≤ length l)%nat.
Proof. induction l as [|x l IH]; simpl; [lia|]. destruct (f x); simpl; lia. Qed.

(** [Up AllAvailable] that returns no error has run every forward action of
    the catalog. *)
Lemma Up_all m w :
  (Up AllAvailable m w).1.1 = None →
  trace (Up AllAvailable m w).2 =
    trace w ++ ranForward (List.filter hasForward (migrationSort (migrations m))).
Proof.
  intros Hret. destruct (Up_first AllAvailable m w) as (k & Ht & _ & He).
  rewrite Ht, (He Hret). rewrite take_ge; [done|].
  pose proof (filter_length_le hasForward (migrationSort (migrations m))) as Hl.
  rewrite migrationSort_length in Hl.
  unfold effective, AllAvailable. simpl. lia.
Qed.

(** The records that a pass of [Up] without failure adds are those of the
    entries it ran. *)
Lemma upLoop_records m n rest p w :
  (∀ mg f, mg ∈ rest → Mig.Up mg = Some f → keepsLedger (migrationsCollection m) f) →
  (upLoop m n rest p w).1 = None →
  ∃ new, ledger m (upLoop m n rest p w).2 = ledger m w ++ new ∧
    Forall2 ownRecord (take (Z.to_nat (n - p)) (List.filter hasForward rest)) new.
Proof.
  revert p w. induction rest as [|mg rest IH]; intros p w K; simpl upLoop.
  { intros _. exists []. simpl List.filter. rewrite app_nil_r, take_nil.
    split; [done|constructor]. }
  assert (∀ mg f, mg ∈ rest → Mig.Up mg = Some f →
            keepsLedger (migrationsCollection m) f) as K'.
  { intros mg' f Hin. apply K. by right. }
  destruct (Z.ltb_spec p n) as [Hp|Hp]; simpl negb; cbv iota.
  2: { intros _. exists []. rewrite app_nil_r.
       replace (Z.to_nat (n - p)) with 0%nat by lia. split; [done|constructor]. }
  rewrite Applied_eq, filter_hasForward_cons. cbv iota.
  destruct (Mig.Up mg) as [up|] eqn:Hup.
  2: { intros Hret. destruct (IH p (tick w) K' Hret) as (new & Hl & Hrec).
       by exists new. }
  pose proof (K mg up ltac:(by left) Hup (store (tick w))) as Kup.
  destruct (up (store (tick w))) as [db err]; simpl in Kup.
  destruct err as [e|]; simpl; [done|].
  after_logging w3.
  assert (ledger m w3 = ledger m w) as Hl3.
  { unfold ledger, documents. by rewrite Hstore, Kup. }
  rewrite SetVersion_eq.
  destruct (fault w3 (calls w3)); simpl; [done|].
  match goal with |- context [upLoop m n rest (p + 1) ?w'] => set (w4 := w') end.
  assert (ledger m w4 =
          ledger m w ++ [Rec.mk (Mig.Version mg) (Mig.Description mg) (clock w3)]) as Hl4.
  { unfold w4, ledger at 1; simpl. by rewrite documents_insert_eq, Hl3. }
  intros Hret. destruct (IH (p + 1) w4 K' Hret) as (new & Hl & Hrec).
  exists (Rec.mk (Mig.Version mg) (Mig.Description mg) (clock w3) :: new).
  rewrite Hl, Hl4, <- app_assoc. split; [done|].
  replace (Z.to_nat (n - p)) with (S (Z.to_nat (n - (p + 1)))) by lia.
  simpl. by constructor.
Qed.



(** * The claims *)

(** C1: the round trip does not hold.  [Down] ends where it reads the
    current version: it returns the error of that read and calls no
    backward action.  With [1, 2, 3] applied, [Down AllAvailable] reverts
    nothing; the [Up AllAvailable] after it calls the three forward actions
    again, over a database they were already applied to, and records 1, 2
    and 3 a second time.  The last record is then that of 3, but [Version]
    returns an error and not 3. *)
Theorem Down_then_Up_reverts_nothing :
  (∀ n m w,
     (Down n m w).1.1 = Some (listingError w) ∧
     trace (Down n m w).2 = trace w ∧
     ledger m (Down n m w).2 = ledger m w) ∧
  (let '(e1, m1, w1) := applied123 in
   let '(e2, m2, w2) := Down AllAvailable m1 w1 in
   let '(e3, m3, w3) := Up AllAvailable m2 w2 in
   e1 = None ∧ trace w1 = [RanUp 1; RanUp 2; RanUp 3] ∧
   Rec.Version <$> ledger m1 w1 = [1%N; 2%N; 3%N] ∧
   e2 = Some marshalError ∧ trace w2 = trace w1 ∧ ledger m2 w2 = ledger m1 w1 ∧
   e3 = None ∧ trace w3 = trace w2 ++ [RanUp 1; RanUp 2; RanUp 3] ∧
   Rec.Version <$> ledger m3 w3 = [1%N; 2%N; 3%N; 1%N; 2%N; 3%N] ∧
   (Version m3 w3).1 = (0%N, EmptyString, Some marshalError)).
Proof.
  split.
  - intros n m w. by rewrite Down_fails.
  - vm_compute. repeat split; reflexivity.
Qed.

(** C2: [Version] does not return the baseline on an empty ledger: on
    every database it returns version 0 and the empty description together
    with an error, that of the listing of the collections, which is the one
    driver call it makes.  On the database whose migrations collection exists
    and is empty the error is the driver's own for the filter of the
    listing. *)
Theorem Version_fails_on_empty_ledger :
  (∀ m w,
     (Version m w).1 = (0%N, EmptyString, Some (listingError w)) ∧
     calls (Version m w).2 = S (calls w) ∧
     store (Version m w).2 = store w) ∧
  store initializedWorld !! defaultMigrationsCollection = Some [] ∧
  ledger (NewMigrate []) initializedWorld = [] ∧
  (Version (NewMigrate []) initializedWorld).1 = (0%N, EmptyString, Some marshalError).
Proof.
  split; [|split; [|split]]; try reflexivity.
  intros m w. by rewrite Version_eq.
Qed.

(** C3: [Up AllAvailable] is not idempotent.  [Applied] answers false for
    every version, so no entry is seen as applied: a second
    [Up AllAvailable] that returns no error has called the forward action
    of every entry that has one, once more.  On [10, 20, 30] the second
    call runs 10, 20 and 30 again and adds three more records. *)
Theorem Up_twice_runs_again :
  (∀ version m w, (Applied version m w).1 = false) ∧
  (∀ m w,
     (Up AllAvailable (Up AllAvailable m w).1.2 (Up AllAvailable m w).2).1.1 = None →
     trace (Up AllAvailable (Up AllAvailable m w).1.2 (Up AllAvailable m w).2).2 =
       trace (Up AllAvailable m w).2 ++
       ranForward (List.filter hasForward (migrationSort (migrations m)))) ∧
  (let '(e1, m1, w1) := applied102030 in
   let '(e2, m2, w2) := Up AllAvailable m1 w1 in
   e1 = None ∧ trace w1 = [RanUp 10; RanUp 20; RanUp 30] ∧
   Rec.Version <$> ledger m1 w1 = [10%N; 20%N; 30%N] ∧
   e2 = None ∧ trace w2 = trace w1 ++ [RanUp 10; RanUp 20; RanUp 30] ∧
   Rec.Version <$> ledger m2 w2 = [10%N; 20%N; 30%N; 10%N; 20%N; 30%N]).
Proof.
  split; [|split].
  - intros version m w. by rewrite Applied_eq.
  - intros m w Hret. rewrite (Up_all _ _ Hret).
    rewrite Up_eq. cbn [fst snd]. simpl migrations.
    by rewrite (migrationSort_ascending_id _ (migrationSort_ascending _)).
  - vm_compute. repeat split; reflexivity.
Qed.

Lemma Up_twice_runs_again_witness :
  trace (Up AllAvailable (Up AllAvailable (NewMigrate catalog102030) emptyWorld).1.2
           (Up AllAvailable (NewMigrate catalog102030) emptyWorld).2).2 =
  trace (Up AllAvailable (NewMigrate catalog102030) emptyWorld).2 ++
  ranForward (List.filter hasForward (migrationSort (migrations (NewMigrate catalog102030)))).
Proof.
  destruct Up_twice_runs_again as (_ & H & _).
  apply (H (NewMigrate catalog102030) emptyWorld). vm_compute. reflexivity.
Defined.

(** C4: the loop of [Down], where it reverts the entry at sorted index [i]
    and the insert goes through, writes a record with the version and
    description of the entry at index [i - 1], or version 0 and the empty
    description at index 0.  But [Down] never enters the loop: it returns
    the error of reading the current version, reverts nothing and writes
    nothing.  With [10, 20, 30] applied, [Down 1] returns that error, calls no
    backward action and leaves the ledger as it is, 30 being its last
    record. *)
Theorem Down_never_reaches_predecessor :
  (∀ m currentVersion n i p w mg down db,
     migrations m !! i = Some mg →
     p < n →
     (Mig.Version mg ≤ currentVersion)%N →
     Mig.Down mg = Some down →
     down (store w) = (db, None) →
     fault w (calls w) = None →
     ∃ w',
       downLoop m currentVersion n (S i) p w = downLoop m currentVersion n i (p + 1) w' ∧
       trace w' = trace w ++ [RanDown (Mig.Version mg)] ∧
       ledger m w' =
         documents (migrationsCollection m) db ++
         [Rec.mk (Mig.Version (prevMigrationAt m i))
                 (Mig.Description (prevMigrationAt m i)) (clock w)]) ∧
  (∀ m, Mig.Version (prevMigrationAt m 0) = 0%N ∧
        Mig.Description (prevMigrationAt m 0) = EmptyString) ∧
  (∀ m j prev, migrations m !! j = Some prev → prevMigrationAt m (S j) = prev) ∧
  (∀ n m w, Down n m w = (Some (listingError w), m, tick w)) ∧
  (let '(_, m1, w1) := applied102030 in
   let '(e2, m2, w2) := Down 1 m1 w1 in
   Rec.Version <$> ledger m1 w1 = [10%N; 20%N; 30%N] ∧
   e2 = Some marshalError ∧ trace w2 = trace w1 ∧ ledger m2 w2 = ledger m1 w1 ∧
   latest (ledger m2 w2) = (30%N, "thirty")).
Proof.
  split; [|split; [|split; [|split]]].
  - intros m cv n i p w mg down db Hi Hp Hv Hdown Hrun F0.
    apply Z.ltb_lt in Hp. apply N.ltb_ge in Hv.
    simpl. rewrite Hp, Hi, Hv, Hdown, Hrun; simpl.
    rewrite SetVersion_eq.
    replace (fault (if logger m then _ else _) (calls (if logger m then _ else _)))
      with (fault w (calls w)) by (by destruct (logger m)).
    rewrite F0. eexists. split; [reflexivity|].
    unfold ledger; simpl. rewrite documents_insert_eq.
    by destruct (logger m).
  - done.
  - intros m j prev Hj. simpl. by rewrite Hj.
  - apply Down_fails.
  - vm_compute. repeat split; reflexivity.
Qed.

Lemma Down_never_reaches_predecessor_witness :
  ∃ w',
    downLoop (NewMigrate [both 10 "ten"; both 20 "twenty"]) 20 1 2 0 emptyWorld =
    downLoop (NewMigrate [both 10 "ten"; both 20 "twenty"]) 20 1 1 (0 + 1) w' ∧
    trace w' = trace emptyWorld ++ [RanDown 20] ∧
    ledger (NewMigrate [both 10 "ten"; both 20 "twenty"]) w' =
      documents defaultMigrationsCollection (touch "down" ∅).1 ++ [Rec.mk 10 "ten" 0].
Proof.
  apply (proj1 Down_never_reaches_predecessor
           (NewMigrate [both 10 "ten"; both 20 "twenty"]) 20%N 1 1%nat 0 emptyWorld
           (both 20 "twenty") (touch "down"));
    try reflexivity; lia.
Defined.

(** C5: a failing action or a failing insert ends [Up] and [Down] at once
    with that error: the step's record is not written and no later entry
    is looked at.  Nothing is rolled back: at the return, with or without
    an error, the ledger is the one at the call followed by the records of
    the steps that succeeded, and an error leaves exactly one more action
    run than records written (none when [Down] could not read the current
    version).  On [1, 2, 3], a failing forward action of 2, or a failing
    insert after it, leaves the record of 1 alone in the ledger and 3
    untouched. *)
Theorem failure_aborts_without_rollback :
  (∀ m n mg rest p w up db e,
     p < n →
     (Applied (Mig.Version mg) m w).1 = false →
     Mig.Up mg = Some up →
     up (store (Applied (Mig.Version mg) m w).2) = (db, Some e) →
     upLoop m n (mg :: rest) p w =
       (Some e, note (RanUp (Mig.Version mg))
                  (setStore db (Applied (Mig.Version mg) m w).2))) ∧
  (∀ m n mg rest p w up db e,
     p < n →
     (Applied (Mig.Version mg) m w).1 = false →
     Mig.Up mg = Some up →
     up (store (Applied (Mig.Version mg) m w).2) = (db, None) →
     fault w (calls (Applied (Mig.Version mg) m w).2) = Some e →
     ∃ w', upLoop m n (mg :: rest) p w = (Some e, w') ∧
           trace w' = trace w ++ [RanUp (Mig.Version mg)] ∧
           store w' = db) ∧
  (∀ m currentVersion n i mg p w down db e,
     p < n → migrations m !! i = Some mg →
     (Mig.Version mg ≤ currentVersion)%N →
     Mig.Down mg = Some down →
     down (store w) = (db, Some e) →
     downLoop m currentVersion n (S i) p w =
       (Some e, note (RanDown (Mig.Version mg)) (setStore db w))) ∧
  (∀ m currentVersion n i mg p w down db e,
     p < n → migrations m !! i = Some mg →
     (Mig.Version mg ≤ currentVersion)%N →
     Mig.Down mg = Some down →
     down (store w) = (db, None) →
     fault w (calls w) = Some e →
     ∃ w', downLoop m currentVersion n (S i) p w = (Some e, w') ∧
           trace w' = trace w ++ [RanDown (Mig.Version mg)] ∧
           store w' = db) ∧
  (∀ n m w, actionsKeepLedger m →
     ∃ new, ledger m (Up n m w).2 = ledger m w ++ new ∧
       match (Up n m w).1.1 with
       | None => trace (Up n m w).2 = trace w ++ ranUp new
       | Some _ => ∃ v, trace (Up n m w).2 = trace w ++ ranUp new ++ [RanUp v]
       end) ∧
  (∀ n m w, actionsKeepLedger m →
     ∃ idx new, ledger m (Down n m w).2 = ledger m w ++ new ∧
       Forall2 (predecessorRecord (sorted m)) idx new ∧
       match (Down n m w).1.1 with
       | None => trace (Down n m w).2 = trace w ++ ranDown (sorted m) idx
       | Some _ =>
           (new = [] ∧ trace (Down n m w).2 = trace w) ∨
           ∃ i, trace (Down n m w).2 = trace w ++ ranDown (sorted m) (idx ++ [i])
       end) ∧
  (let '(e, m1, w1) := Up AllAvailable (NewMigrate catalogFailing) emptyWorld in
   e = Some (ErrAction 9) ∧ trace w1 = [RanUp 1; RanUp 2] ∧
   Rec.Version <$> ledger m1 w1 = [1%N]) ∧
  (let '(e, m1, w1) := Up AllAvailable (NewMigrate catalog123) insertFailsWorld in
   e = Some (ErrDriver 7) ∧ trace w1 = [RanUp 1; RanUp 2] ∧
   Rec.Version <$> ledger m1 w1 = [1%N]).
Proof.
  split; [|split; [|split; [|split; [|split; [|split; [|split]]]]]].
  - intros m n mg rest p w up db e Hp Ha Hup Hrun.
    apply Z.ltb_lt in Hp. simpl. rewrite Hp; simpl.
    destruct (Applied (Mig.Version mg) m w) as [applied w1]; simpl in *.
    subst applied. by rewrite Hup, Hrun.
  - intros m n mg rest p w up db e Hp Ha Hup Hrun F.
    apply Z.ltb_lt in Hp. simpl. rewrite Hp; simpl.
    pose proof (rd_fault _ _ _ (Applied_reads (Mig.Version mg) m w)) as Rf.
    pose proof (rd_trace _ _ _ (Applied_reads (Mig.Version mg) m w)) as Rt.
    destruct (Applied (Mig.Version mg) m w) as [applied w1]; simpl in *.
    subst applied. rewrite Hup, Hrun.
    after_logging w3. rewrite SetVersion_eq, Hcalls, Hfault, Rf, F.
    eexists. split; [reflexivity|]. simpl. by rewrite Htrace, Hstore, Rt.
  - intros m cv n i mg p w down db e Hp Hi Hv Hdown Hrun.
    apply Z.ltb_lt in Hp. apply N.ltb_ge in Hv.
    simpl. by rewrite Hp, Hi, Hv, Hdown, Hrun.
  - intros m cv n i mg p w down db e Hp Hi Hv Hdown Hrun F.
    apply Z.ltb_lt in Hp. apply N.ltb_ge in Hv.
    simpl. rewrite Hp, Hi, Hv, Hdown, Hrun; simpl.
    after_logging w2. rewrite SetVersion_eq, Hcalls, Hfault, F.
    eexists. split; [reflexivity|]. simpl. by rewrite Htrace, Hstore.
  - intros n m w K. by apply Up_progress.
  - intros n m w K. by apply Down_progress.
  - vm_compute. repeat split; reflexivity.
  - vm_compute. repeat split; reflexivity.
Qed.

Lemma failure_aborts_without_rollback_witness :
  ∃ new,
    ledger (NewMigrate catalogFailing)
      (Up AllAvailable (NewMigrate catalogFailing) emptyWorld).2 =
    ledger (NewMigrate catalogFailing) emptyWorld ++ new ∧
    match (Up AllAvailable (NewMigrate catalogFailing) emptyWorld).1.1 with
    | None =>
        trace (Up AllAvailable (NewMigrate catalogFailing) emptyWorld).2 =
        trace emptyWorld ++ ranUp new
    | Some _ =>
        ∃ v, trace (Up AllAvailable (NewMigrate catalogFailing) emptyWorld).2 =
             trace emptyWorld ++ ranUp new ++ [RanUp v]
    end.
Proof.
  apply (proj1 (proj2 (proj2 (proj2 (proj2 failure_aborts_without_rollback))))).
  catalog_keeps.
Defined.

(** C6: [Applied] returns false for every version on every database,
    after the one driver call that lists the collections; a record of the
    version in the ledger does not make it true.  With the record of 5 in
    the ledger, [Applied 5] is false; with the records of 7 and then 2,
    [Applied 7] and [Applied 2] are false. *)
Theorem Applied_is_always_false :
  (∀ version m w, Applied version m w = (false, tick w)) ∧
  recorded 5 (ledger (NewMigrate []) worldAt5) = true ∧
  (Applied 5 (NewMigrate []) worldAt5).1 = false ∧
  recorded 7 (ledger (NewMigrate []) worldAt7Then2) = true ∧
  (Applied 7 (NewMigrate []) worldAt7Then2).1 = false ∧
  recorded 2 (ledger (NewMigrate []) worldAt7Then2) = true ∧
  (Applied 2 (NewMigrate []) worldAt7Then2).1 = false.
Proof.
  split; [apply Applied_eq|]. repeat split; reflexivity.
Qed.

(** C7: [Up n] goes through the catalog sorted by version and calls the
    forward actions of the first entries that have one, applied or not: at
    most [n'] of them, and exactly the first [n'] when it returns no error;
    [n'] is [n] when [0 < n <= len(catalog)] and [len(catalog)] otherwise.
    [Up 2] on the unapplied [1, 2, 3, 4, 5] runs 1 and 2 and records them,
    and the catalog registered as [5, 1, 3] is run in the order 1, 3, 5;
    [Version] returns an error after either.  With 5 applied, [Up] on the
    catalog [5, 3] runs 3 and then 5 again. *)
Theorem Up_runs_first_with_forward_action :
  (∀ n m w, ∃ k,
     trace (Up n m w).2 =
       trace w ++
       ranForward (take k (List.filter hasForward (migrationSort (migrations m)))) ∧
     Z.of_nat k ≤ effective n m ∧
     ((Up n m w).1.1 = None →
        take k (List.filter hasForward (migrationSort (migrations m))) =
        take (Z.to_nat (effective n m))
          (List.filter hasForward (migrationSort (migrations m))))) ∧
  (∀ n m,
     (0 < n ≤ Z.of_nat (length (migrations m)) → effective n m = n) ∧
     (n ≤ 0 ∨ Z.of_nat (length (migrations m)) < n →
        effective n m = Z.of_nat (length (migrations m)))) ∧
  (∀ l, ascending (migrationSort l) ∧ migrationSort l ≡ₚ l) ∧
  (let '(e, m1, w1) := Up 2 (NewMigrate catalog12345) emptyWorld in
   e = None ∧ trace w1 = [RanUp 1; RanUp 2] ∧
   ledger m1 w1 = [Rec.mk 1 "one" 0; Rec.mk 2 "two" 1] ∧
   (Version m1 w1).1 = (0%N, EmptyString, Some marshalError)) ∧
  (let '(e, m1, w1) := Up AllAvailable (NewMigrate catalog513) emptyWorld in
   e = None ∧ trace w1 = [RanUp 1; RanUp 3; RanUp 5] ∧
   Rec.Version <$> ledger m1 w1 = [1%N; 3%N; 5%N] ∧
   (Version m1 w1).1 = (0%N, EmptyString, Some marshalError)) ∧
  (let '(e, m1, w1) := Up AllAvailable (NewMigrate catalog53) worldAt5 in
   recorded 5 (ledger (NewMigrate catalog53) worldAt5) = true ∧
   e = None ∧ trace w1 = [RanUp 3; RanUp 5] ∧
   Rec.Version <$> ledger m1 w1 = [5%N; 3%N; 5%N]).
Proof.
  split; [|split; [|split; [|split; [|split]]]].
  - apply Up_first.
  - apply effective_bounds.
  - intros l. split; [apply migrationSort_ascending|apply migrationSort_Permutation].
  - vm_compute. repeat split; reflexivity.
  - vm_compute. repeat split; reflexivity.
  - vm_compute. repeat split; reflexivity.
Qed.

Lemma Up_runs_first_with_forward_action_witness :
  effective 2 (NewMigrate catalog12345) = 2.
Proof.
  apply (proj1 (proj1 (proj2 Up_runs_first_with_forward_action) 2 (NewMigrate catalog12345))).
  simpl. lia.
Defined.

(** C8: an entry without a forward action is passed over by [Up], and an
    entry without a backward action by the loop of [Down] whatever the
    current version; the loop goes on with the same count of performed
    steps, the same trace and the same ledger.  An applied entry is not
    passed over by [Up]: [Applied] is false for it, and its forward action
    is called when the entry has one.  With 2 lacking a backward and 3 a
    forward action, [Up 3] runs 1, 2 and 4, a second [Up 3] runs 1, 2 and 4
    again, and [Down 3] returns an error and reverts nothing. *)
Theorem skips_ignore_the_ledger :
  (∀ m n p w, p < n →
     (∀ mg rest,
        Mig.Up mg = None →
        upLoop m n (mg :: rest) p w =
          upLoop m n rest p (Applied (Mig.Version mg) m w).2 ∧
        trace (Applied (Mig.Version mg) m w).2 = trace w ∧
        ledger m (Applied (Mig.Version mg) m w).2 = ledger m w) ∧
     (∀ mg i currentVersion,
        migrations m !! i = Some mg → Mig.Down mg = None →
        downLoop m currentVersion n (S i) p w = downLoop m currentVersion n i p w) ∧
     (∀ mg rest up,
        Mig.Up mg = Some up →
        (Applied (Mig.Version mg) m w).1 = false ∧
        trace w ++ [RanUp (Mig.Version mg)]
          `prefix_of` trace (upLoop m n (mg :: rest) p w).2)) ∧
  (let '(e1, m1, w1) := Up 3 (NewMigrate catalogMixed) emptyWorld in
   let '(e2, m2, w2) := Up 3 m1 w1 in
   let '(e3, m3, w3) := Down 3 m2 w2 in
   e1 = None ∧ trace w1 = [RanUp 1; RanUp 2; RanUp 4] ∧
   Rec.Version <$> ledger m1 w1 = [1%N; 2%N; 4%N] ∧
   e2 = None ∧ trace w2 = trace w1 ++ [RanUp 1; RanUp 2; RanUp 4] ∧
   e3 = Some marshalError ∧ trace w3 = trace w2 ∧ ledger m3 w3 = ledger m2 w2).
Proof.
  split.
  - intros m n p w Hp. split; [|split].
    + intros mg rest Hup. split; [|split; apply Applied_reads].
      apply Z.ltb_lt in Hp. simpl. rewrite Hp, Hup; simpl.
      by destruct (Applied (Mig.Version mg) m w) as [[] w1].
    + intros mg i cv Hi Hdown. apply Z.ltb_lt in Hp.
      simpl. rewrite Hp, Hi, Hdown; simpl.
      by destruct (N.ltb _ _).
    + intros mg rest up Hup. split; [by rewrite Applied_eq|].
      by apply (upLoop_runs_head m n mg rest p w up).
  - vm_compute. repeat split; reflexivity.
Qed.

Lemma skips_ignore_the_ledger_witness :
  upLoop (NewMigrate []) 1 [Mig.mk 1 "a" None None; both 2 "b"] 0 emptyWorld =
  upLoop (NewMigrate []) 1 [both 2 "b"] 0 (Applied 1 (NewMigrate []) emptyWorld).2.
Proof.
  destruct skips_ignore_the_ledger as [H _].
  destruct (H (NewMigrate []) 1 0 emptyWorld) as [Hskip _]; [lia|].
  apply Hskip. reflexivity.
Defined.

(** C9: the ledger is append-only.  [Version] and [Applied] leave its
    records as they are; [SetVersion] adds one record stamped with the
    clock, or nothing when the insert fails; [Up] and [Down] only add
    records at the end, each stamped during the call (the migration
    functions leaving the migrations collection alone). *)
Theorem ledger_append_only n version description m w :
  ledger m (Version m w).2 = ledger m w ∧
  ledger m (Applied version m w).2 = ledger m w ∧
  ledger m (SetVersion version description m w).2 =
    match fault w (calls w) with
    | Some _ => ledger m w
    | None => ledger m w ++ [Rec.mk version description (clock w)]
    end ∧
  (actionsKeepLedger m →
     (∃ new, ledger m (Up n m w).2 = ledger m w ++ new ∧ stamped w (Up n m w).2 new) ∧
     (∃ new, ledger m (Down n m w).2 = ledger m w ++ new ∧ stamped w (Down n m w).2 new)).
Proof.
  split; [apply Version_reads|].
  split; [apply Applied_reads|].
  split.
  - rewrite SetVersion_eq. destruct (fault w (calls w)); [done|].
    unfold ledger at 1; simpl. by rewrite documents_insert_eq.
  - intros K. split.
    + apply (ev_ledger _ _ _ (Up_evolves n m w K)).
    + apply (ev_ledger _ _ _ (Down_evolves n m w K)).
Qed.

Lemma ledger_append_only_witness :
  ∃ new,
    ledger (NewMigrate [both 2 "b"; both 1 "a"])
      (Up AllAvailable (NewMigrate [both 2 "b"; both 1 "a"]) emptyWorld).2 =
    ledger (NewMigrate [both 2 "b"; both 1 "a"]) emptyWorld ++ new.
Proof.
  destruct (ledger_append_only AllAvailable 0 EmptyString
              (NewMigrate [both 2 "b"; both 1 "a"]) emptyWorld) as (_ & _ & _ & H).
  destruct H as [(new & Hnew & _) _].
  - apply actionsKeepLedger_both. repeat constructor; eauto.
  - by exists new.
Defined.

(** C10: [Version] and [Applied] do not create the migrations collection:
    the listing of the collections, their one driver call, fails, so
    [createCollectionIfNotExist] returns its error before the create
    command; [Version] returns that error with the zero version, [Applied]
    returns false, and the database is as it was.  [SetVersion] makes one
    driver call, the insert, whether the collection exists or not; an
    insert that goes through adds the record, to a collection that holds
    it alone when there was none. *)
Theorem reads_create_nothing version description m w :
  createCollectionIfNotExist (migrationsCollection m) w = (Some (listingError w), tick w) ∧
  (Version m w).1 = (0%N, EmptyString, Some (listingError w)) ∧
  (Applied version m w).1 = false ∧
  store (Version m w).2 = store w ∧ store (Applied version m w).2 = store w ∧
  calls (Version m w).2 = S (calls w) ∧ calls (Applied version m w).2 = S (calls w) ∧
  calls (SetVersion version description m w).2 = S (calls w) ∧
  ((SetVersion version description m w).1 = None →
     ledger m (SetVersion version description m w).2 =
       ledger m w ++ [Rec.mk version description (clock w)] ∧
     (store w !! migrationsCollection m = None →
        store (SetVersion version description m w).2 !! migrationsCollection m =
          Some [Rec.mk version description (clock w)])).
Proof.
  rewrite createCollectionIfNotExist_eq, Version_eq, Applied_eq, SetVersion_eq.
  do 7 (split; [done|]).
  split; [by destruct (fault w (calls w))|].
  destruct (fault w (calls w)); [done|]. intros _.
  split.
  - unfold ledger at 1; simpl. by rewrite documents_insert_eq.
  - intros Hnone. simpl. rewrite lookup_insert_eq.
    unfold ledger, documents. by rewrite Hnone.
Qed.

Lemma reads_create_nothing_witness :
  ledger (NewMigrate []) (SetVersion 4 "four" (NewMigrate []) emptyWorld).2 =
    ledger (NewMigrate []) emptyWorld ++ [Rec.mk 4 "four" (clock emptyWorld)] ∧
  (store emptyWorld !! migrationsCollection (NewMigrate []) = None →
     store (SetVersion 4 "four" (NewMigrate []) emptyWorld).2
       !! migrationsCollection (NewMigrate []) =
     Some [Rec.mk 4 "four" (clock emptyWorld)]).
Proof.
  apply (reads_create_nothing 4 "four" (NewMigrate []) emptyWorld).
  reflexivity.
Defined.

(** * Further properties of migrate.go *)

(** X1: [isCollectionExist] never answers.  The listing it starts with is
    handed a filter that the driver cannot write as a document, so it
    returns with an error after that one call, for a collection that exists
    as for one that does not; the names are never compared. *)
Theorem isCollectionExist_never_answers :
  (∀ name w,
     isCollectionExist name w = (Err (listingError w), tick w) ∧
     store (isCollectionExist name w).2 = store w ∧
     calls (isCollectionExist name w).2 = S (calls w)) ∧
  store twoCollections !! "users" = Some [] ∧
  isCollectionExist "users" twoCollections = (Err marshalError, tick twoCollections) ∧
  isCollectionExist "absent" twoCollections = (Err marshalError, tick twoCollections).
Proof.
  split; [|split; [|split]]; try reflexivity.
  intros name w. by rewrite isCollectionExist_eq.
Qed.

(** X2: [createCollectionIfNotExist] creates nothing: it returns the error
    of the listing, the one driver call it makes, and never sends the
    create command; the database is as it was. *)
Theorem createCollectionIfNotExist_creates_nothing :
  (∀ name w,
     createCollectionIfNotExist name w = (Some (listingError w), tick w) ∧
     store (createCollectionIfNotExist name w).2 = store w ∧
     calls (createCollectionIfNotExist name w).2 = S (calls w)) ∧
  createCollectionIfNotExist defaultMigrationsCollection emptyWorld =
    (Some marshalError, tick emptyWorld) ∧
  store (createCollectionIfNotExist defaultMigrationsCollection emptyWorld).2
    !! defaultMigrationsCollection = None.
Proof.
  split; [|split]; try reflexivity.
  intros name w. by rewrite createCollectionIfNotExist_eq.
Qed.

(** X3: the answers of [Version] and [Applied] do not depend on what the
    database holds: two databases at the same point of the same sequence
    of driver outcomes get the same answers, whatever their ledgers. *)
Theorem Version_ignores_the_ledger m w w' :
  fault w' = fault w →
  calls w' = calls w →
  (Version m w').1 = (Version m w).1 ∧
  ∀ version, (Applied version m w').1 = (Applied version m w).1.
Proof.
  intros Hf Hc. rewrite !Version_eq. split.
  - unfold listingError. by rewrite Hf, Hc.
  - intros version. by rewrite !Applied_eq.
Qed.

Lemma Version_ignores_the_ledger_witness :
  (Version (NewMigrate []) worldAt7Then2).1 = (Version (NewMigrate []) emptyWorld).1.
Proof.
  apply (Version_ignores_the_ledger (NewMigrate []) emptyWorld worldAt7Then2);
    reflexivity.
Defined.

(** X4: a [SetVersion] that returns no error has added its record at the
    end of the ledger, so that it is the latest record and the version is
    recorded; yet right after it [Version] returns an error with the zero
    version, and [Applied] answers false for the version just set. *)
Theorem SetVersion_record_is_not_read version description m w :
  (SetVersion version description m w).1 = None →
  ledger m (SetVersion version description m w).2 =
    ledger m w ++ [Rec.mk version description (clock w)] ∧
  latest (ledger m (SetVersion version description m w).2) = (version, description) ∧
  recorded version (ledger m (SetVersion version description m w).2) = true ∧
  (∃ e, (Version m (SetVersion version description m w).2).1 =
          (0%N, EmptyString, Some e)) ∧
  (Applied version m (SetVersion version description m w).2).1 = false.
Proof.
  intros Hret.
  assert (ledger m (SetVersion version description m w).2 =
          ledger m w ++ [Rec.mk version description (clock w)]) as Hl.
  { revert Hret. rewrite SetVersion_eq. destruct (fault w (calls w)); [done|].
    intros _. unfold ledger at 1; simpl. by rewrite documents_insert_eq. }
  rewrite Hl, Version_eq, Applied_eq. split; [done|]. split; [|split; [|split]].
  - unfold latest. by rewrite last_snoc.
  - rewrite recorded_app. simpl. by rewrite N.eqb_refl, orb_true_r.
  - by eexists.
  - done.
Qed.

Lemma SetVersion_record_is_not_read_witness :
  ledger (NewMigrate []) (SetVersion 4 "four" (NewMigrate []) worldAt7Then2).2 =
    ledger (NewMigrate []) worldAt7Then2 ++ [Rec.mk 4 "four" (clock worldAt7Then2)] ∧
  (Applied 4 (NewMigrate []) (SetVersion 4 "four" (NewMigrate []) worldAt7Then2).2).1 = false.
Proof.
  destruct (SetVersion_record_is_not_read 4 "four" (NewMigrate []) worldAt7Then2)
    as (Hl & _ & _ & _ & Ha); [reflexivity|].
  split; [exact Hl|exact Ha].
Defined.

(** X5: when [Version] fails, [Down] returns that error at once: it runs
    no backward action, writes no record and leaves the catalog in the
    order it was registered in; the version that comes with the error is 0
    with the empty description. *)
Theorem Down_stops_on_version_error n m w e :
  (Version m w).1.2 = Some e →
  Down n m w = (Some e, m, (Version m w).2) ∧
  trace (Down n m w).2 = trace w ∧
  ledger m (Down n m w).2 = ledger m w ∧
  (Version m w).1.1 = (0%N, EmptyString).
Proof.
  intros He. rewrite Down_eq, He. cbn [fst snd].
  split; [done|]. split; [apply Version_reads|]. split; [apply Version_reads|].
  by eapply Version_error.
Qed.

Lemma Down_stops_on_version_error_witness :
  Down AllAvailable (NewMigrate catalog513)
    (mkWorld ∅ 0 (failingAt 0 (ErrDriver 7)) 0 [] []) =
  (Some (ErrDriver 7), NewMigrate catalog513,
   (Version (NewMigrate catalog513) (mkWorld ∅ 0 (failingAt 0 (ErrDriver 7)) 0 [] [])).2).
Proof.
  apply (Down_stops_on_version_error AllAvailable (NewMigrate catalog513)
           (mkWorld ∅ 0 (failingAt 0 (ErrDriver 7)) 0 [] [])).
  reflexivity.
Defined.

(** X6: [SetMigrationsCollection] changes the collection name and nothing
    else of the [Migrate]; a record set under one name is not seen under
    another: the ledger of the other name is unchanged, and so are, in a
    world that holds no error for a driver call, the answers of [Version]
    and [Applied] for it. *)
Theorem collections_are_separate version description name m w :
  name ≠ migrationsCollection m →
  migrationsCollection (SetMigrationsCollection name m) = name ∧
  migrations (SetMigrationsCollection name m) = migrations m ∧
  logger (SetMigrationsCollection name m) = logger m ∧
  ledger (SetMigrationsCollection name m) (SetVersion version description m w).2 =
    ledger (SetMigrationsCollection name m) w ∧
  (healthy w →
     (Version (SetMigrationsCollection name m) (SetVersion version description m w).2).1 =
       (Version (SetMigrationsCollection name m) w).1 ∧
     ∀ v, (Applied v (SetMigrationsCollection name m)
             (SetVersion version description m w).2).1 =
          (Applied v (SetMigrationsCollection name m) w).1).
Proof.
  intros Hne. split; [done|]. split; [done|]. split; [done|].
  assert (ledger (SetMigrationsCollection name m) (SetVersion version description m w).2 =
          ledger (SetMigrationsCollection name m) w) as Hl.
  { rewrite SetVersion_eq. destruct (fault w (calls w)); [done|].
    unfold ledger; simpl. by rewrite documents_insert_ne. }
  split; [done|]. intros Hw.
  destruct (healthy_SetVersion version description m w Hw) as [_ Hw1]. split.
  - by rewrite !Version_eq, (healthy_listingError _ Hw1), (healthy_listingError _ Hw).
  - intros v. by rewrite !Applied_eq.
Qed.

Lemma collections_are_separate_witness :
  ledger (SetMigrationsCollection "other" (NewMigrate []))
    (SetVersion 4 "four" (NewMigrate []) worldAt7Then2).2 =
  ledger (SetMigrationsCollection "other" (NewMigrate [])) worldAt7Then2.
Proof.
  apply (collections_are_separate 4 "four" "other" (NewMigrate []) worldAt7Then2).
  discriminate.
Defined.

(** X7: [Version] and [Applied] leave every collection other than the
    migrations collection as it is, and do not touch the clock, the
    logger's lines or the migration functions. *)
Theorem reads_leave_the_rest version m w :
  (∀ name, name ≠ migrationsCollection m →
     store (Version m w).2 !! name = store w !! name ∧
     store (Applied version m w).2 !! name = store w !! name) ∧
  clock (Version m w).2 = clock w ∧ clock (Applied version m w).2 = clock w ∧
  output (Version m w).2 = output w ∧ output (Applied version m w).2 = output w ∧
  trace (Version m w).2 = trace w ∧ trace (Applied version m w).2 = trace w.
Proof.
  destruct (Version_reads m w) as [_ _ Vk Vt Vo _ Vs].
  destruct (Applied_reads version m w) as [_ _ Ak At Ao _ As].
  repeat split; auto.
Qed.

(** X8: [Down] returns from reading the current version, before the sort:
    it leaves the catalog in the order it was registered in, where [Up]
    leaves it sorted by version.  On the empty database, [Down AllAvailable]
    on the catalog registered as [5, 1, 3] returns the error and the
    catalog is still [5, 1, 3]. *)
Theorem Down_keeps_registration_order :
  (∀ n m w, (Down n m w).1.2 = m ∧ (Up n m w).1.2 = sorted m) ∧
  (let '(e, m1, w1) := Down AllAvailable (NewMigrate catalog513) emptyWorld in
   e = Some marshalError ∧ Mig.Version <$> migrations m1 = [5%N; 1%N; 3%N] ∧
   trace w1 = [] ∧ store w1 = ∅) ∧
  Mig.Version <$> migrations (Up AllAvailable (NewMigrate catalog513) emptyWorld).1.2 =
    [1%N; 3%N; 5%N].
Proof.
  split; [|split].
  - intros n m w. by rewrite Down_fails, Up_eq.
  - vm_compute. repeat split; reflexivity.
  - reflexivity.
Qed.


(** X10: whatever fails, [Up n] calls forward actions of catalog entries
    only, in the order of the sorted catalog and each entry at most once,
    and at most [n'] of them, where [n'] never exceeds the length of the
    catalog. *)
Theorem Up_runs_in_catalog_order n m w :
  ∃ ran,
    trace (Up n m w).2 = trace w ++ ranForward ran ∧
    ran `sublist_of` migrationSort (migrations m) ∧
    Forall (λ mg, Mig.Up mg ≠ None) ran ∧
    Z.of_nat (length ran) ≤ effective n m ∧
    effective n m ≤ Z.of_nat (length (migrations m)).
Proof.
  rewrite Up_eq. cbn [fst snd].
  destruct (upLoop_runs (sorted m) (effective n m) (migrations (sorted m)) 0 w)
    as (ran & ok & Ht & _ & Hs & Hf & Hb & _ & _).
  pose proof (effective_range n m).
  exists ran. repeat split; auto; lia.
Qed.


(** X13: an [Up] that returns no error has added to the ledger the records
    of the entries it ran, in the order run: each carries the version and
    the description of its entry (the migration functions leaving the
    migrations collection alone). *)
Theorem Up_records_own_versions n m w :
  actionsKeepLedger m →
  (Up n m w).1.1 = None →
  ∃ new, ledger m (Up n m w).2 = ledger m w ++ new ∧
    Forall2 ownRecord
      (take (Z.to_nat (effective n m))
         (List.filter hasForward (migrationSort (migrations m)))) new.
Proof.
  intros K. rewrite Up_eq. cbn [fst snd]. intros Hret.
  destruct (upLoop_records (sorted m) (effective n m) (migrations (sorted m)) 0 w)
    as (new & Hl & Hrec); [|done|].
  - intros mg f Hin Hf. apply (actionsKeepLedger_sorted m K mg f Hin). by left.
  - rewrite Z.sub_0_r in Hrec. by exists new.
Qed.

Lemma Up_records_own_versions_witness :
  ∃ new,
    ledger (NewMigrate catalog12345) (Up 2 (NewMigrate catalog12345) emptyWorld).2 =
      ledger (NewMigrate catalog12345) emptyWorld ++ new ∧
    Forall2 ownRecord
      (take (Z.to_nat (effective 2 (NewMigrate catalog12345)))
         (List.filter hasForward (migrationSort (migrations (NewMigrate catalog12345)))))
      new.
Proof.
  apply (Up_records_own_versions 2 (NewMigrate catalog12345) emptyWorld).
  - apply actionsKeepLedger_both. repeat constructor; eauto.
  - reflexivity.
Defined.

(** X14: [Up] never reports a failure of its lookups: when it returns an
    error it has called at least one forward action.  [Down] returns an
    error either from reading the current version, before anything is
    run, or after calling at least one backward action. *)
Theorem errors_come_from_steps n m w e :
  ((Up n m w).1.1 = Some e →
     ∃ ran, trace (Up n m w).2 = trace w ++ ranForward ran ∧ ran ≠ []) ∧
  ((Down n m w).1.1 = Some e →
     ((Version m w).1.2 = Some e ∧ trace (Down n m w).2 = trace w) ∨
     ∃ ran, trace (Down n m w).2 = trace w ++ ranBackward ran ∧ ran ≠ []).
Proof.
  split.
  - rewrite Up_eq. cbn [fst snd]. intros Hret.
    pose proof (upLoop_error _ _ _ _ _ _ Hret) as Hlen.
    destruct (upLoop_runs (sorted m) (effective n m) (migrations (sorted m)) 0 w)
      as (ran & ok & Ht & _).
    exists ran. split; [done|]. intros ->.
    rewrite Ht, length_app in Hlen. simpl in Hlen. lia.
  - rewrite Down_eq. pose proof (Version_reads m w) as R.
    destruct (Version m w) as [[[cv d] [e'|]] w1]; cbn [fst snd] in *.
    + intros [= ->]. left. split; [done|apply R].
    + intros Hret. right.
      pose proof (downLoop_error _ _ _ _ _ _ _ Hret) as Hlen.
      destruct (downLoop_runs (sorted m) cv (effective n m)
                  (length (migrations (sorted m))) 0 w1) as (ran & ok & Ht & _).
      exists ran. rewrite Ht, (rd_trace _ _ _ R). split; [done|]. intros ->.
      rewrite Ht, length_app in Hlen. simpl in Hlen. lia.
Qed.

Lemma errors_come_from_steps_witness :
  ∃ ran, trace (Up AllAvailable (NewMigrate catalogFailing) emptyWorld).2 =
         trace emptyWorld ++ ranForward ran ∧ ran ≠ [].
Proof.
  apply (proj1 (errors_come_from_steps AllAvailable (NewMigrate catalogFailing)
                  emptyWorld (ErrAction 9))).
  reflexivity.
Defined.

(** X15: a failing lookup counts as "not applied": when the listing of
    the collections fails, [Up] calls the forward action of the entry at
    hand whatever the ledger holds, also when the version has a record. *)
Theorem failed_lookup_runs_the_action m n mg rest p w e up :
  p < n →
  fault w (calls w) = Some e →
  Mig.Up mg = Some up →
  (Applied (Mig.Version mg) m w).1 = false ∧
  trace w ++ [RanUp (Mig.Version mg)] `prefix_of` trace (upLoop m n (mg :: rest) p w).2.
Proof.
  intros Hp F Hup. split; [by rewrite Applied_eq|].
  by apply (upLoop_runs_head m n mg rest p w up).
Qed.

Lemma failed_lookup_runs_the_action_witness :
  (Applied 5 (NewMigrate catalog53)
     (mkWorld {[ defaultMigrationsCollection := [Rec.mk 5 "five" 0] ]}
        0 (failingAt 0 (ErrDriver 7)) 1 [] [])).1 = false ∧
  trace (mkWorld {[ defaultMigrationsCollection := [Rec.mk 5 "five" 0] ]}
           0 (failingAt 0 (ErrDriver 7)) 1 [] []) ++ [RanUp 5]
  `prefix_of`
  trace (upLoop (NewMigrate catalog53) 1 [both 5 "five"] 0
           (mkWorld {[ defaultMigrationsCollection := [Rec.mk 5 "five" 0] ]}
              0 (failingAt 0 (ErrDriver 7)) 1 [] [])).2.
Proof.
  apply (failed_lookup_runs_the_action (NewMigrate catalog53) 1 (both 5 "five") [] 0
           (mkWorld {[ defaultMigrationsCollection := [Rec.mk 5 "five" 0] ]}
              0 (failingAt 0 (ErrDriver 7)) 1 [] [])
           (ErrDriver 7) (touch "up"));
    [lia|reflexivity|reflexivity].
Defined.

(** X17: [Up] does not resume where an earlier [Up] stopped, it starts
    over: when [Up a] and the [Up b] after it return no error, the second
    call has run the forward actions of the first [b'] entries that have
    one, from the start of the sorted catalog, after the first [a'] that
    the first call ran. *)
Theorem Up_starts_over a b m w :
  (Up a m w).1.1 = None →
  (Up b (Up a m w).1.2 (Up a m w).2).1.1 = None →
  trace (Up b (Up a m w).1.2 (Up a m w).2).2 =
    trace w ++
    ranForward (take (Z.to_nat (effective a m))
                  (List.filter hasForward (migrationSort (migrations m)))) ++
    ranForward (take (Z.to_nat (effective b m))
                  (List.filter hasForward (migrationSort (migrations m)))).
Proof.
  intros Ha Hb.
  destruct (Up_first a m w) as (k1 & Ht1 & _ & He1).
  destruct (Up_first b (Up a m w).1.2 (Up a m w).2) as (k2 & Ht2 & _ & He2).
  rewrite Ht2, (He2 Hb), Ht1, (He1 Ha), <- app_assoc.
  rewrite Up_eq. cbn [fst snd]. simpl migrations.
  rewrite (migrationSort_ascending_id _ (migrationSort_ascending _)).
  assert (effective b (sorted m) = effective b m) as ->; [|done].
  unfold effective. simpl. by rewrite migrationSort_length.
Qed.

Lemma Up_starts_over_witness :
  trace (Up 1 (Up 1 (NewMigrate catalog513) emptyWorld).1.2
           (Up 1 (NewMigrate catalog513) emptyWorld).2).2 =
  trace emptyWorld ++
  ranForward (take (Z.to_nat (effective 1 (NewMigrate catalog513)))
                (List.filter hasForward (migrationSort (migrations (NewMigrate catalog513))))) ++
  ranForward (take (Z.to_nat (effective 1 (NewMigrate catalog513)))
                (List.filter hasForward (migrationSort (migrations (NewMigrate catalog513))))).
Proof.
  apply (Up_starts_over 1 1 (NewMigrate catalog513) emptyWorld); reflexivity.
Defined.
